(** * Tower Defense 3D: the simulation core, embedded and verified

    A shallow embedding of [js/Path.js], [js/Enemy.js], [js/Projectile.js],
    [js/Tower.js], [js/WaveManager.js] and the animation loop of [js/main.js],
    followed by the properties proved of it.

    - JavaScript numbers are IEEE 754 binary64 values: they are modelled by
      Rocq's primitive floats, so [NaN], signed zeros and rounding behave as
      in the program.  Counters that only ever hold small integers
      ([currentWaypointIndex], [currentWaveIndex], [count], [level],
      [playerLives]) are [nat] or [Z].
    - Objects shared by reference (the enemies) live in a heap; towers,
      projectiles and the [enemies] array hold references into it.
    - A JavaScript exception is the [Throw] outcome of the [Res] monad; the
      state a throwing call leaves behind is not tracked.
    - [null] and [undefined] are [None].
    - The scene graph, materials and colours, console output, the DOM, the
      scheduling of animation frames, the build-mode flag and the tower
      selection are rendering and input collaborators and are left out. *)

From Stdlib Require Import ZArith Floats String List Lia Bool.
From stdpp Require Import base list.
Import ListNotations.

Set Warnings "-inexact-float".

(** ** JavaScript numbers *)

Abbreviation number := float.

(** [a >= b] and [a > b] are the mirrored [<=] and [<]; every comparison
    with [NaN] is false. *)
Definition js_le (a b : number) : bool := PrimFloat.leb a b.
Definition js_lt (a b : number) : bool := PrimFloat.ltb a b.
Definition js_ge (a b : number) : bool := PrimFloat.leb b a.
Definition js_gt (a b : number) : bool := PrimFloat.ltb b a.

(** ToBoolean on a number: [0], [-0] and [NaN] are falsy. *)
Definition js_truthy (a : number) : bool :=
  negb (PrimFloat.eqb a 0%float || PrimFloat.is_nan a).

(** [a || d] where [a] is a number or [undefined]. *)
Definition js_or (a : option number) (d : number) : number :=
  match a with
  | Some v => if js_truthy v then v else d
  | None => d
  end.

(** ** Exceptions *)

Inductive Exn : Type :=
| TypeError (msg : string).

Inductive Res (A : Type) : Type :=
| Ok (a : A)
| Throw (e : Exn).
Arguments Ok {A} a.
Arguments Throw {A} e.

#[global] Instance Res_ret : MRet Res := fun _ a => Ok a.
#[global] Instance Res_bind : MBind Res := fun _ _ f r =>
  match r with
  | Ok a => f a
  | Throw e => Throw e
  end.

(** Reading a property of [null] or [undefined] throws. *)
Definition deref {A : Type} (o : option A) (msg : string) : Res A :=
  match o with
  | Some a => Ok a
  | None => Throw (TypeError msg)
  end.

Definition is_Ok {A : Type} (r : Res A) : bool :=
  match r with Ok _ => true | Throw _ => false end.

(** ** THREE.Vector3 (the operations the core calls) *)

Record Vector3 : Type := mkVector3 { vx : number; vy : number; vz : number }.

Module V3.
Local Open Scope float_scope.

Definition subVectors (a b : Vector3) : Vector3 :=
  mkVector3 (vx a - vx b) (vy a - vy b) (vz a - vz b).

Definition add (a b : Vector3) : Vector3 :=
  mkVector3 (vx a + vx b) (vy a + vy b) (vz a + vz b).

Definition length (v : Vector3) : number :=
  PrimFloat.sqrt (vx v * vx v + vy v * vy v + vz v * vz v).

Definition multiplyScalar (v : Vector3) (s : number) : Vector3 :=
  mkVector3 (vx v * s) (vy v * s) (vz v * s).

Definition divideScalar (v : Vector3) (s : number) : Vector3 :=
  multiplyScalar v (1 / s).

Definition normalize (v : Vector3) : Vector3 :=
  divideScalar v (js_or (Some (length v)) 1).

Definition addScaledVector (p v : Vector3) (s : number) : Vector3 :=
  mkVector3 (vx p + vx v * s) (vy p + vy v * s) (vz p + vz v * s).

Definition distanceToSquared (a b : Vector3) : number :=
  let dx := vx a - vx b in
  let dy := vy a - vy b in
  let dz := vz a - vz b in
  dx * dx + dy * dy + dz * dz.

End V3.

(** ** THREE.Mesh: a position and the parameters of its geometry *)

Inductive Geometry : Type :=
| SphereGeometry (radius : number)
| BoxGeometry (width height depth : number).

(** [geometry.parameters.radius]: [undefined] on a box. *)
Definition parameters_radius (g : Geometry) : option number :=
  match g with
  | SphereGeometry r => Some r
  | BoxGeometry _ _ _ => None
  end.

(** [geometry.parameters.height] used as a number: [undefined] becomes [NaN]. *)
Definition parameters_height (g : Geometry) : number :=
  match g with
  | SphereGeometry _ => PrimFloat.nan
  | BoxGeometry _ h _ => h
  end.

Record Mesh : Type := mkMesh { position : Vector3; geometry : Geometry }.

Definition set_position (m : Mesh) (p : Vector3) : Mesh :=
  mkMesh p (geometry m).

(** ** js/Path.js *)

Record Path : Type := mkPath { path_waypoints : option (list Vector3) }.

Definition Path_new : Path :=
  mkPath (Some [ mkVector3 (-15) 0.1 0;
                 mkVector3 0 0.1 0;
                 mkVector3 0 0.1 15;
                 mkVector3 15 0.1 15 ]%float).

Definition getWaypoints (p : Path) : option (list Vector3) := path_waypoints p.

(** ** js/Enemy.js *)

(** The [config] argument: every key is optional. *)
Record EnemyConfig : Type := mkEnemyConfig {
  cfg_health : option number;
  cfg_speed : option number;
  cfg_value : option number;
  cfg_size : option number
}.

Definition empty_config : EnemyConfig := mkEnemyConfig None None None None.

Record Enemy : Type := mkEnemy {
  health : number;
  speed : number;
  value : number;
  currentWaypointIndex : nat;
  waypoints : option (list Vector3);
  mesh : option Mesh
}.

Definition set_mesh (e : Enemy) (m : option Mesh) : Enemy :=
  mkEnemy (health e) (speed e) (value e) (currentWaypointIndex e) (waypoints e) m.

Definition set_health (e : Enemy) (h : number) : Enemy :=
  mkEnemy h (speed e) (value e) (currentWaypointIndex e) (waypoints e) (mesh e).

Definition set_currentWaypointIndex (e : Enemy) (i : nat) : Enemy :=
  mkEnemy (health e) (speed e) (value e) i (waypoints e) (mesh e).

(** [{ ...defaults, ...config }] *)
Definition finalConfig (config : EnemyConfig) : number * number * number * number :=
  (default 100 (cfg_health config),
   default 2 (cfg_speed config),
   default 10 (cfg_value config),
   default 0.5 (cfg_size config))%float.

(** [new Enemy(path, scene, config)].  A constructor that executes a bare
    [return] still yields the object under construction. *)
Definition Enemy_new (path : option Path) (config : EnemyConfig) : Res Enemy :=
  let '(h, s, v, size) := finalConfig config in
  p ← deref path "reading 'getWaypoints'";
  let wps := getWaypoints p in
  let this := mkEnemy h s v 0%nat wps None in
  match wps with
  | None => Ok this
  | Some [] => Ok this
  | Some (w0 :: _) => Ok (set_mesh this (Some (mkMesh w0 (SphereGeometry size))))
  end.

Definition isDead (e : Enemy) : bool := js_le (health e) 0.

Definition hasReachedEnd (e : Enemy) : Res bool :=
  wps ← deref (waypoints e) "reading 'length'";
  Ok (Nat.leb (List.length wps) (currentWaypointIndex e)).

Definition Enemy_update (e : Enemy) (deltaTime : number) : Res Enemy :=
  match mesh e with
  | None => Ok e
  | Some m =>
      ended ← hasReachedEnd e;
      if ended : bool then Ok e
      else
        match default [] (waypoints e) !! currentWaypointIndex e with
        | None => Ok e
        | Some targetWaypoint =>
            let direction := V3.subVectors targetWaypoint (position m) in
            let distance := V3.length direction in
            let moveDistance := (speed e * deltaTime)%float in
            if js_ge moveDistance distance then
              Ok (set_currentWaypointIndex
                    (set_mesh e (Some (set_position m targetWaypoint)))
                    (S (currentWaypointIndex e)))
            else
              Ok (set_mesh e (Some (set_position m
                    (V3.addScaledVector (position m) (V3.normalize direction) moveDistance))))
        end
  end.

Definition takeDamage (e : Enemy) (amount : number) : Enemy :=
  set_health e (health e - amount)%float.

Definition Enemy_dispose (e : Enemy) : Enemy := set_mesh e None.

(** ** The heap of enemy objects

    Towers, projectiles and the [enemies] array share enemy objects by
    reference.  A reference is an index into the heap; objects are never
    freed, [dispose] only clears their fields.  A reference beyond the heap
    cannot arise in the program; reading one is reported as a [Throw]. *)

Abbreviation ref := nat.
Abbreviation Heap := (list Enemy).

Definition load (h : Heap) (r : ref) : Res Enemy :=
  deref (h !! r) "no such object".

Definition alloc (h : Heap) (e : Enemy) : ref * Heap :=
  (List.length h, h ++ [e]).

(** ** js/Projectile.js *)

Inductive ProjectileStatus : Type :=
| INVALID_TARGET
| HIT_TARGET
| MOVING.

Record ProjectileConfig : Type := mkProjectileConfig {
  pcfg_speed : option number;
  pcfg_size : option number;
  pcfg_damage : option number
}.

Record Projectile : Type := mkProjectile {
  targetEnemy : option ref;
  proj_speed : number;
  proj_damage : number;
  proj_mesh : option Mesh
}.

Definition Projectile_new (startPosition : Vector3) (target : option ref)
    (config : ProjectileConfig) : Projectile :=
  mkProjectile target
    (default 20%float (pcfg_speed config))
    (default 10%float (pcfg_damage config))
    (Some (mkMesh startPosition (SphereGeometry (default 0.1%float (pcfg_size config))))).

Definition Projectile_update (h : Heap) (p : Projectile) (deltaTime : number)
    : Res (ProjectileStatus * Projectile * Heap) :=
  match targetEnemy p with
  | None => Ok (INVALID_TARGET, p, h)
  | Some r =>
      e ← load h r;
      if isDead e then Ok (INVALID_TARGET, p, h)
      else
        em ← deref (mesh e) "reading 'position'";
        let targetPosition := position em in
        pm ← deref (proj_mesh p) "reading 'position'";
        let direction := V3.subVectors targetPosition (position pm) in
        let distance := V3.length direction in
        let moveDistance := (proj_speed p * deltaTime)%float in
        let hitThreshold :=
          (js_or (parameters_radius (geometry em)) 0.5
           + js_or (parameters_radius (geometry pm)) 0.1)%float in
        if js_le distance moveDistance || js_le distance hitThreshold then
          Ok (HIT_TARGET, p, <[r := takeDamage e (proj_damage p)]> h)
        else
          let pm' := set_position pm
            (V3.addScaledVector (position pm) (V3.normalize direction) moveDistance) in
          Ok (MOVING,
              mkProjectile (targetEnemy p) (proj_speed p) (proj_damage p) (Some pm'),
              h)
  end.

Definition Projectile_dispose (p : Projectile) : Projectile :=
  mkProjectile None (proj_speed p) (proj_damage p) None.

(** ** js/Tower.js

    [upgrade] and [getUpgradeCost] rest on [Math.pow], whose result the
    language leaves implementation-approximated; no property below needs
    them, so the tower carries its current [damage] and [range]. *)

Record TowerConfig : Type := mkTowerConfig {
  tcfg_cost : option number;
  tcfg_height : option number;
  tcfg_range : option number;
  tcfg_damage : option number;
  tcfg_fireRate : option number
}.

Record Tower : Type := mkTower {
  cost : number;
  tower_position : Vector3;
  level : Z;
  baseDamage : number;
  baseRange : number;
  fireRate : number;
  damage : number;
  range : number;
  currentTarget : option ref;
  fireCooldown : number;
  tower_mesh : option Mesh
}.

Definition set_currentTarget (t : Tower) (c : option ref) : Tower :=
  mkTower (cost t) (tower_position t) (level t) (baseDamage t) (baseRange t)
    (fireRate t) (damage t) (range t) c (fireCooldown t) (tower_mesh t).

Definition set_fireCooldown (t : Tower) (c : number) : Tower :=
  mkTower (cost t) (tower_position t) (level t) (baseDamage t) (baseRange t)
    (fireRate t) (damage t) (range t) (currentTarget t) c (tower_mesh t).

Definition Tower_new (pos : Vector3) (config : TowerConfig) : Tower :=
  let height := default 1.5%float (tcfg_height config) in
  let dmg := default 10%float (tcfg_damage config) in
  let rng := default 5%float (tcfg_range config) in
  mkTower (default 50%float (tcfg_cost config)) pos 1 dmg rng
    (default 1%float (tcfg_fireRate config)) dmg rng None 0%float
    (Some (mkMesh (mkVector3 (vx pos) (vy pos + height / 2)%float (vz pos))
                  (BoxGeometry 0.8 height 0.8))).

(** The [for ... of] loop of [findTarget]: [Some r] when the scan breaks
    at [r], [None] when it runs off the end of the array. *)
Fixpoint findTarget_scan (h : Heap) (t : Tower) (closestDistanceSq : number)
    (enemies : list ref) : Res (option ref) :=
  match enemies with
  | [] => Ok None
  | r :: rest =>
      e ← load h r;
      if isDead e then findTarget_scan h t closestDistanceSq rest
      else
        tm ← deref (tower_mesh t) "reading 'position'";
        em ← deref (mesh e) "reading 'position'";
        let distanceSq := V3.distanceToSquared (position tm) (position em) in
        if js_le distanceSq closestDistanceSq then Ok (Some r)
        else findTarget_scan h t closestDistanceSq rest
  end.

(** [!target || target.isDead() || distanceToSquared(...) > range * range] *)
Definition target_invalid (h : Heap) (t : Tower) (target : option ref) : Res bool :=
  match target with
  | None => Ok true
  | Some r =>
      e ← load h r;
      if isDead e then Ok true
      else
        tm ← deref (tower_mesh t) "reading 'position'";
        em ← deref (mesh e) "reading 'position'";
        Ok (js_gt (V3.distanceToSquared (position tm) (position em))
                  (range t * range t)%float)
  end.

Definition findTarget (h : Heap) (t : Tower) (enemies : list ref) : Res Tower :=
  let closestDistanceSq := (range t * range t)%float in
  found ← findTarget_scan h t closestDistanceSq enemies;
  let t1 := set_currentTarget t found in
  match found with
  | None => Ok t1
  | Some _ =>
      bad ← target_invalid h t1 found;
      if bad : bool then Ok (set_currentTarget t1 None) else Ok t1
  end.

Definition attack (h : Heap) (t : Tower) (projectilesArray : list Projectile)
    (target : option ref) : Res (Tower * list Projectile) :=
  match target with
  | None => Ok (set_currentTarget t None, projectilesArray)
  | Some r =>
      e ← load h r;
      if isDead e then Ok (set_currentTarget t None, projectilesArray)
      else
        tm ← deref (tower_mesh t) "reading 'geometry'";
        let towerHeight := parameters_height (geometry tm) in
        let startPos :=
          V3.add (position tm) (mkVector3 0 (towerHeight / 2 + 0.1) 0)%float in
        let projectile := Projectile_new startPos target
          (mkProjectileConfig (Some 20%float) (Some 0.1%float) (Some (damage t))) in
        Ok (set_fireCooldown t (1 / fireRate t)%float,
            projectilesArray ++ [projectile])
  end.

Definition Tower_update (h : Heap) (t : Tower) (projectilesArray : list Projectile)
    (deltaTime : number) (enemies : list ref) : Res (Tower * list Projectile) :=
  let t1 :=
    if js_gt (fireCooldown t) 0 then
      set_fireCooldown t (fireCooldown t - deltaTime)%float
    else t in
  bad ← target_invalid h t1 (currentTarget t1);
  t2 ← (if bad : bool then findTarget h t1 enemies else Ok t1);
  match currentTarget t2 with
  | Some _ =>
      if js_le (fireCooldown t2) 0 then attack h t2 projectilesArray (currentTarget t2)
      else Ok (t2, projectilesArray)
  | None => Ok (t2, projectilesArray)
  end.

(** ** js/WaveManager.js *)

Definition Object_prototype_keys : list string :=
  [ "constructor"; "__defineGetter__"; "__defineSetter__"; "hasOwnProperty";
    "__lookupGetter__"; "__lookupSetter__"; "isPrototypeOf";
    "propertyIsEnumerable"; "toString"; "valueOf"; "__proto__";
    "toLocaleString" ]%string.

(** [ENEMY_CONFIGS[type]].  The three own keys give a stat table.  A key
    inherited from [Object.prototype] gives a truthy object without own
    enumerable properties, which the enemy constructor spreads to nothing.
    Any other key gives [undefined]. *)
Definition ENEMY_CONFIGS (type : string) : option EnemyConfig :=
  if String.eqb type "standard" then
    Some (mkEnemyConfig (Some 100) (Some 1.5) (Some 10) (Some 0.5))%float
  else if String.eqb type "fast" then
    Some (mkEnemyConfig (Some 50) (Some 3.0) (Some 8) (Some 0.4))%float
  else if String.eqb type "tough" then
    Some (mkEnemyConfig (Some 250) (Some 1.0) (Some 20) (Some 0.7))%float
  else if existsb (String.eqb type) Object_prototype_keys then
    Some empty_config
  else None.

Record SpawnInfo : Type := mkSpawnInfo {
  type : string;
  count : Z;
  interval : number
}.

Record WaveConfig : Type := mkWaveConfig {
  wave_enemies : list SpawnInfo;
  delay : number
}.

Inductive WaveSignal : Type :=
| WAVE_ACTIVE
| GAME_WON
| WAVE_STARTED
| WAVE_COMPLETE.

Record WaveManager : Type := mkWaveManager {
  wm_path : option Path;
  waveConfigs : list WaveConfig;
  currentWaveIndex : Z;
  spawnTimer : number;
  enemiesToSpawn : list SpawnInfo;
  activeWave : bool;
  timeUntilNextWave : number
}.

Definition WaveManager_new (path : option Path) : WaveManager :=
  mkWaveManager path
    [ mkWaveConfig [ mkSpawnInfo "standard" 5 1.0 ] 3.0;
      mkWaveConfig [ mkSpawnInfo "standard" 8 0.8;
                     mkSpawnInfo "fast" 3 1.5 ] 5.0;
      mkWaveConfig [ mkSpawnInfo "tough" 2 2.0;
                     mkSpawnInfo "standard" 10 0.5;
                     mkSpawnInfo "fast" 5 0.7 ] 5.0 ]%float
    (-1) 0%float [] false 0%float.

(** A number through [JSON.parse(JSON.stringify(x))]: a finite number comes
    back as itself ([-0] as [0]); [NaN] and the infinities come back as
    [null], which every later arithmetic use reads as [0]. *)
Definition JSON_number (x : number) : number :=
  if PrimFloat.is_nan x || PrimFloat.is_infinity x || PrimFloat.eqb x 0%float
  then 0%float else x.

Definition JSON_copy (g : SpawnInfo) : SpawnInfo :=
  mkSpawnInfo (type g) (count g) (JSON_number (interval g)).

Definition getCurrentWaveNumber (w : WaveManager) : Z := (currentWaveIndex w + 1)%Z.

(** [this.waveConfigs[i]]: [undefined] outside the array. *)
Definition waveConfigs_at (w : WaveManager) (i : Z) : option WaveConfig :=
  if (i <? 0)%Z then None else waveConfigs w !! Z.to_nat i.

Definition startNextWave (w : WaveManager) : Res (WaveSignal * WaveManager) :=
  if activeWave w then Ok (WAVE_ACTIVE, w)
  else
    let i := (currentWaveIndex w + 1)%Z in
    let w1 := mkWaveManager (wm_path w) (waveConfigs w) i (spawnTimer w)
                (enemiesToSpawn w) (activeWave w) (timeUntilNextWave w) in
    if (Z.of_nat (List.length (waveConfigs w)) <=? i)%Z then Ok (GAME_WON, w1)
    else
      currentConfig ← deref (waveConfigs_at w1 i) "reading 'enemies'";
      Ok (WAVE_STARTED,
          mkWaveManager (wm_path w) (waveConfigs w) i 0%float
            (map JSON_copy (wave_enemies currentConfig)) true (timeUntilNextWave w)).

Definition set_spawn (w : WaveManager) (timer : number) (queue : list SpawnInfo)
    : WaveManager :=
  mkWaveManager (wm_path w) (waveConfigs w) (currentWaveIndex w) timer queue
    (activeWave w) (timeUntilNextWave w).

Definition set_activeWave (w : WaveManager) (a : bool) : WaveManager :=
  mkWaveManager (wm_path w) (waveConfigs w) (currentWaveIndex w) (spawnTimer w)
    (enemiesToSpawn w) a (timeUntilNextWave w).

(** The wave-completion check that ends [update]. *)
Definition check_completion (w : WaveManager) (enemiesArray : list ref) (h : Heap)
    : option WaveSignal * WaveManager * list ref * Heap :=
  match enemiesToSpawn w, enemiesArray with
  | [], [] => (Some WAVE_COMPLETE, set_activeWave w false, enemiesArray, h)
  | _, _ => (None, w, enemiesArray, h)
  end.

(** [update(deltaTime)]; [enemiesArray] is the array shared with [main.js]. *)
Definition WaveManager_update (w : WaveManager) (enemiesArray : list ref) (h : Heap)
    (deltaTime : number) : Res (option WaveSignal * WaveManager * list ref * Heap) :=
  if negb (activeWave w) then Ok (None, w, enemiesArray, h)
  else
    let timer := (spawnTimer w - deltaTime)%float in
    match enemiesToSpawn w with
    | spawnInfo :: rest =>
        if js_le timer 0 then
          match ENEMY_CONFIGS (type spawnInfo) with
          | None => Ok (None, set_spawn w timer rest, enemiesArray, h)
          | Some enemyTypeConfig =>
              enemy ← Enemy_new (wm_path w) enemyTypeConfig;
              let '(r, h1) := alloc h enemy in
              let enemies1 := enemiesArray ++ [r] in
              let spawnInfo1 :=
                mkSpawnInfo (type spawnInfo) (count spawnInfo - 1) (interval spawnInfo) in
              let w1 :=
                if (count spawnInfo1 <=? 0)%Z then
                  match rest with
                  | next :: _ => set_spawn w (interval next) rest
                  | [] => set_spawn w (interval spawnInfo1) rest
                  end
                else set_spawn w (interval spawnInfo1) (spawnInfo1 :: rest) in
              Ok (check_completion w1 enemies1 h1)
          end
        else Ok (check_completion (set_spawn w timer (enemiesToSpawn w)) enemiesArray h)
    | [] => Ok (check_completion (set_spawn w timer []) enemiesArray h)
    end.

Definition isWaveActive (w : WaveManager) : bool := activeWave w.

(** ** js/main.js: match state, commands and the animation loop *)

Inductive GameStatus : Type :=
| S_IDLE
| S_WAVE_ACTIVE
| S_WAVE_COMPLETE
| S_GAME_OVER
| S_GAME_WON.

Record Game : Type := mkGame {
  playerGold : number;
  playerLives : Z;
  currentWaveNumber : Z;
  gameStatus : GameStatus;
  waveManager : WaveManager;
  towers : list Tower;
  projectiles : list Projectile;
  enemies : list ref;
  heap : Heap
}.

Definition BASIC_TOWER_COST : number := 50%float.

Definition Game_init : Game :=
  mkGame 100%float 20 0 S_IDLE (WaveManager_new (Some Path_new)) [] [] [] [].

Definition game_ended (s : GameStatus) : bool :=
  match s with
  | S_GAME_OVER | S_GAME_WON => true
  | _ => false
  end.

(** The click handler of the start-wave button. *)
Definition onStartWave (g : Game) : Res Game :=
  match gameStatus g with
  | S_IDLE | S_WAVE_COMPLETE =>
      '(waveResult, w) ← startNextWave (waveManager g);
      match waveResult with
      | WAVE_STARTED =>
          Ok (mkGame (playerGold g) (playerLives g) (getCurrentWaveNumber w)
                S_WAVE_ACTIVE w (towers g) (projectiles g) (enemies g) (heap g))
      | GAME_WON =>
          Ok (mkGame (playerGold g) (playerLives g) (currentWaveNumber g)
                S_GAME_WON w (towers g) (projectiles g) (enemies g) (heap g))
      | _ =>
          Ok (mkGame (playerGold g) (playerLives g) (currentWaveNumber g)
                (gameStatus g) w (towers g) (projectiles g) (enemies g) (heap g))
      end
  | _ => Ok g
  end.

(** The build branch of the canvas click, for a click that hits the ground
    at [intersectPoint] while build mode is on. *)
Definition onBuildClick (g : Game) (intersectPoint : Vector3) : Game :=
  if game_ended (gameStatus g) then g
  else if js_ge (playerGold g) BASIC_TOWER_COST then
    let towerPosition := mkVector3 (vx intersectPoint) 0%float (vz intersectPoint) in
    let towerConfig :=
      mkTowerConfig (Some BASIC_TOWER_COST) None (Some 6%float) (Some 30%float)
        (Some 1.2%float) in
    mkGame (playerGold g - BASIC_TOWER_COST)%float (playerLives g) (currentWaveNumber g)
      (gameStatus g) (waveManager g)
      (towers g ++ [Tower_new towerPosition towerConfig])
      (projectiles g) (enemies g) (heap g)
  else g.

(** Step 2 of [animate]: [for (const tower of towers) tower.update(...)]. *)
Fixpoint update_towers (h : Heap) (ts : list Tower) (projectilesArray : list Projectile)
    (deltaTime : number) (enemiesArray : list ref) : Res (list Tower * list Projectile) :=
  match ts with
  | [] => Ok ([], projectilesArray)
  | t :: rest =>
      '(t', ps) ← Tower_update h t projectilesArray deltaTime enemiesArray;
      '(rest', ps') ← update_towers h rest ps deltaTime enemiesArray;
      Ok (t' :: rest', ps')
  end.

(** Step 3: the backwards loop over [projectiles]; [update_projectiles n]
    runs the iterations [i = n - 1] down to [i = 0]. *)
Fixpoint update_projectiles (n : nat) (h : Heap) (ps : list Projectile)
    (deltaTime : number) : Res (list Projectile * Heap) :=
  match n with
  | O => Ok (ps, h)
  | S i =>
      projectile ← deref (ps !! i) "reading 'update'";
      '(status, projectile', h') ← Projectile_update h projectile deltaTime;
      match status with
      | MOVING => update_projectiles i h' (<[i := projectile']> ps) deltaTime
      | HIT_TARGET | INVALID_TARGET => update_projectiles i h' (delete i ps) deltaTime
      end
  end.

Inductive Flow : Type :=
| Continue
| Return.

Definition set_reap (g : Game) (gold : number) (lives : Z) (status : GameStatus)
    (es : list ref) (h : Heap) : Game :=
  mkGame gold lives (currentWaveNumber g) status (waveManager g) (towers g)
    (projectiles g) es h.

(** Step 4: the body of the backwards loop over [enemies] at index [i]. *)
Definition animate_enemy (g : Game) (i : nat) (deltaTime : number) : Res (Flow * Game) :=
  r ← deref (enemies g !! i) "reading 'update'";
  enemy ← load (heap g) r;
  enemy1 ← Enemy_update enemy deltaTime;
  if isDead enemy1 then
    Ok (Continue,
        set_reap g (playerGold g + value enemy1)%float (playerLives g) (gameStatus g)
          (delete i (enemies g)) (<[r := Enemy_dispose enemy1]> (heap g)))
  else
    ended ← hasReachedEnd enemy1;
    if ended : bool then
      let lives := (playerLives g - 1)%Z in
      if (lives <=? 0)%Z then
        Ok (Return,
            set_reap g (playerGold g) 0 S_GAME_OVER (enemies g) (<[r := enemy1]> (heap g)))
      else
        Ok (Continue,
            set_reap g (playerGold g) lives (gameStatus g)
              (delete i (enemies g)) (<[r := Enemy_dispose enemy1]> (heap g)))
    else
      Ok (Continue,
          set_reap g (playerGold g) (playerLives g) (gameStatus g)
            (enemies g) (<[r := enemy1]> (heap g))).

Fixpoint animate_enemies (n : nat) (g : Game) (deltaTime : number) : Res Game :=
  match n with
  | O => Ok g
  | S i =>
      '(flow, g') ← animate_enemy g i deltaTime;
      match flow with
      | Return => Ok g'
      | Continue => animate_enemies i g' deltaTime
      end
  end.

(** One frame; [deltaTime] is what [clock.getDelta()] returns. *)
Definition animate (g : Game) (deltaTime : number) : Res Game :=
  if game_ended (gameStatus g) then Ok g
  else
    '(waveStatus, w, es, h) ← WaveManager_update (waveManager g) (enemies g) (heap g) deltaTime;
    let status :=
      match waveStatus with
      | Some WAVE_COMPLETE => S_WAVE_COMPLETE
      | _ => gameStatus g
      end in
    '(ts, ps) ← update_towers h (towers g) (projectiles g) deltaTime es;
    '(ps', h') ← update_projectiles (List.length ps) h ps deltaTime;
    animate_enemies (List.length es)
      (mkGame (playerGold g) (playerLives g) (currentWaveNumber g) status w ts ps' es h')
      deltaTime.

(** What the player and the browser do to the match: a frame, a click on the
    start-wave button, a build click on the ground. *)
Inductive Command : Type :=
| Frame (deltaTime : number)
| StartWave
| Build (intersectPoint : Vector3).

Definition perform (g : Game) (c : Command) : Res Game :=
  match c with
  | Frame deltaTime => animate g deltaTime
  | StartWave => onStartWave g
  | Build intersectPoint => Ok (onBuildClick g intersectPoint)
  end.

Fixpoint play (g : Game) (cs : list Command) : Res Game :=
  match cs with
  | [] => Ok g
  | c :: rest => g' ← perform g c; play g' rest
  end.

(** * Vocabulary of the properties *)

(** ** The operations an enemy undergoes during its lifetime *)

Inductive EnemyOp : Type :=
| OpUpdate (deltaTime : number)
| OpTakeDamage (amount : number)
| OpDispose.

Definition Enemy_apply (op : EnemyOp) (e : Enemy) : Res Enemy :=
  match op with
  | OpUpdate deltaTime => Enemy_update e deltaTime
  | OpTakeDamage amount => Ok (takeDamage e amount)
  | OpDispose => Ok (Enemy_dispose e)
  end.

Fixpoint Enemy_run (ops : list EnemyOp) (e : Enemy) : Res Enemy :=
  match ops with
  | [] => Ok e
  | op :: rest => e' ← Enemy_apply op e; Enemy_run rest e'
  end.

(** ** Sample enemies *)

Definition the_route : list Vector3 := default [] (getWaypoints Path_new).

(** A standard enemy three units short of the second waypoint. *)
Definition enemy_en_route : Enemy :=
  mkEnemy 100 1.5 10 1 (Some the_route)
    (Some (mkMesh (mkVector3 (-3) 0.1 0) (SphereGeometry 0.5)))%float.

Definition empty_path : Path := mkPath (Some []).

(** ** Scheduler *)

(** [update] takes its early exit: the timer has run out and the group at
    the front of the queue names an enemy type without a stat table. *)
Definition drops_unknown_group (w : WaveManager) (deltaTime : number) : bool :=
  activeWave w &&
  match enemiesToSpawn w with
  | spawnInfo :: _ =>
      js_le (spawnTimer w - deltaTime)%float 0 &&
      bool_decide (ENEMY_CONFIGS (type spawnInfo) = None)
  | [] => false
  end.

(** The scheduler after the first click on the start-wave button. *)
Definition wave1_started : WaveManager :=
  mkWaveManager (Some Path_new) (waveConfigs (WaveManager_new (Some Path_new)))
    0 0%float [mkSpawnInfo "standard" 5 1.0%float] true 0%float.

(** An active scheduler whose only queued group has an unknown type. *)
Definition boss_wave : WaveManager :=
  mkWaveManager (Some Path_new) [mkWaveConfig [mkSpawnInfo "boss" 1 1.0%float] 0%float]
    0 0%float [mkSpawnInfo "boss" 1 1.0%float] true 0%float.

(** ** Targeting *)

Section Targeting.

Variables (h : Heap) (t : Tower) (tm : Mesh).

(** The squared distance from the tower to an enemy mesh is within
    [range * range]. *)
Definition within_range (em : Mesh) : bool :=
  js_le (V3.distanceToSquared (position tm) (position em)) (range t * range t)%float.

(** The scan moves past [r]: the enemy is dead, or alive and out of range. *)
Definition passed_over (r : ref) : Prop :=
  exists e, h !! r = Some e /\
    (isDead e = true \/
     (isDead e = false /\ exists em, mesh e = Some em /\ within_range em = false)).

(** The scan stops at [r]: the enemy is alive and in range. *)
Definition in_reach (r : ref) : Prop :=
  exists e em, h !! r = Some e /\ isDead e = false /\ mesh e = Some em /\
    within_range em = true.

(** [found] is the first enemy of the array, in its order, that is alive
    and in range; nothing is asked of the enemies behind it. *)
Inductive first_in_reach : list ref -> option ref -> Prop :=
| first_none (es : list ref) :
    Forall passed_over es -> first_in_reach es None
| first_some (pre : list ref) (r : ref) (post : list ref) :
    Forall passed_over pre -> in_reach r -> first_in_reach (pre ++ r :: post) (Some r).

(** The same test as a boolean, for arrays whose enemies all have a mesh. *)
Definition in_reach_b (r : ref) : bool :=
  match h !! r with
  | Some e =>
      negb (isDead e) &&
      match mesh e with
      | Some em => within_range em
      | None => false
      end
  | None => false
  end.

End Targeting.

(** A tower as the build click makes it, at the origin. *)
Definition tower_at_origin : Tower :=
  Tower_new (mkVector3 0 0 0)%float
    (mkTowerConfig (Some 50) None (Some 6) (Some 30) (Some 1.2))%float.

Definition standard_at (x z : number) : Enemy :=
  mkEnemy 100 1.5 10 1 (Some the_route)
    (Some (mkMesh (mkVector3 x 0.1 z) (SphereGeometry 0.5)))%float.

(** Enemy 0 is dead, enemy 1 is out of range, enemy 2 is five units away,
    enemy 3 is one unit away, enemy 4 has no mesh. *)
Definition five_enemies : Heap :=
  [ set_health (standard_at 1 0) 0%float;
    standard_at (-9) 0;
    standard_at (-5) 0;
    standard_at (-1) 0;
    Enemy_dispose (standard_at (-2) 0) ]%float.

(** The cooldown after the first statement of [Tower.update]. *)
Definition cooled (t : Tower) (deltaTime : number) : number :=
  if js_gt (fireCooldown t) 0 then (fireCooldown t - deltaTime)%float
  else fireCooldown t.

(** A tower that has just fired: its cooldown is [1 / 1.2]. *)
Definition tower_reloading : Tower :=
  set_fireCooldown tower_at_origin (1 / 1.2)%float.

(** ** Sample matches *)

(** A click on the start-wave button followed by [n] frames of a quarter of
    a second. *)
Definition wave (n : nat) : list Command :=
  StartWave :: repeat (Frame 0.25%float) n.

(** A tower upgraded once (level 2) at the corner of the ground. *)
Definition corner_tower : Tower :=
  mkTower 50 (mkVector3 10 0 10) 2 30 6 1.2 (30 * 1.2) (6 * 1.1) None 0
    (Some (mkMesh (mkVector3 10 0.75 10) (BoxGeometry 0.8 1.5 0.8)))%float.

(** A fast enemy on the last segment of the route. *)
Definition fast_at (x : number) : Enemy :=
  mkEnemy 50 3.0 8 3 (Some the_route)
    (Some (mkMesh (mkVector3 x 0.1 15) (SphereGeometry 0.4)))%float.

(** The second wave when its last two enemies near the end of the route:
    the first is about to leave the range of the corner tower. *)
Definition last_stretch : Game :=
  mkGame 60%float 20 2 S_WAVE_ACTIVE
    (mkWaveManager (Some Path_new) (waveConfigs (WaveManager_new (Some Path_new)))
       1 0.5%float [] true 0%float)
    [corner_tower] [] [0; 1] [fast_at 14.2; fast_at 9.7]%float.

(** A projectile on its way to enemy 0. *)
Definition projectile_to_0 : Projectile :=
  Projectile_new (mkVector3 10 1.6 10)%float (Some 0)
    (mkProjectileConfig (Some 20) (Some 0.1) (Some 30))%float.

(** An enemy that reached the end of the route alive and was disposed. *)
Definition arrived_alive : Enemy :=
  mkEnemy 100 1.5 10 4 (Some the_route) None%float.

(** A standard enemy a hundredth of a unit short of the end of the route. *)
Definition at_the_line (h : number) : Enemy :=
  mkEnemy h 1.5 10 3 (Some the_route)
    (Some (mkMesh (mkVector3 14.99 0.1 15) (SphereGeometry 0.5)))%float.

(** The scheduler of the first wave once all its enemies are out. *)
Definition all_spawned : WaveManager :=
  mkWaveManager (Some Path_new) (waveConfigs (WaveManager_new (Some Path_new)))
    0 1.0%float [] true 0%float.

(** A match with one enemy left, and a projectile about to hit it. *)
Definition photo_finish (h : number) : Game :=
  mkGame 100%float 20 1 S_WAVE_ACTIVE all_spawned [tower_reloading]
    [Projectile_new (mkVector3 14.9 0.1 15)%float (Some 0)
       (mkProjectileConfig (Some 20) (Some 0.1) (Some 30))%float]
    [0] [at_the_line h].

(** ** Enemies over the course of a match *)

(** [e'] is a later state of the enemy [e]: same route, cursor not behind. *)
Definition later (e e' : Enemy) : Prop :=
  waypoints e' = waypoints e /\ currentWaypointIndex e <= currentWaypointIndex e'.

(** The cursor of [e] is within its route. *)
Definition cursor_ok (e : Enemy) : Prop :=
  forall wps, waypoints e = Some wps -> currentWaypointIndex e <= List.length wps.

(** Every enemy of [h] is found in [h'] under the same reference, in a later
    state; and if all cursors of [h] are within their routes, so are those
    of [h']. *)
Definition heap_step (h h' : Heap) : Prop :=
  (forall r e, h !! r = Some e -> exists e', h' !! r = Some e' /\ later e e') /\
  ((forall r e, h !! r = Some e -> cursor_ok e) ->
   (forall r e, h' !! r = Some e -> cursor_ok e)).

(** * Vocabulary of the further properties *)

#[global] Instance Res_fmap : FMap Res := fun _ _ f r =>
  match r with
  | Ok a => Ok (f a)
  | Throw e => Throw e
  end.

(** The number of [update] calls in a history. *)
Fixpoint updates_in (ops : list EnemyOp) : nat :=
  match ops with
  | [] => 0
  | OpUpdate _ :: rest => S (updates_in rest)
  | _ :: rest => updates_in rest
  end.

(** One pass over the projectiles from the last to the first: [rps] is the
    array reversed; the result lists, in the order of the array, the
    projectiles that are still moving. *)
Fixpoint sweep (h : Heap) (rps : list Projectile) (deltaTime : number)
    : Res (list Projectile * Heap) :=
  match rps with
  | [] => Ok ([], h)
  | p :: rest =>
      '(status, p', h1) ← Projectile_update h p deltaTime;
      '(kept, h2) ← sweep h1 rest deltaTime;
      Ok (match status with
          | MOVING => kept ++ [p']
          | HIT_TARGET | INVALID_TARGET => kept
          end, h2)
  end.

(** A projectile a tenth of a unit away from the end of the route, aimed at
    enemy 0. *)
Definition projectile_close : Projectile :=
  Projectile_new (mkVector3 14.9 0.1 15)%float (Some 0)
    (mkProjectileConfig (Some 20) (Some 0.1) (Some 30))%float.

(** Two states of a tower that differ at most in target and cooldown. *)
Definition same_build (t t' : Tower) : Prop :=
  exists c cd, t' = set_fireCooldown (set_currentTarget t c) cd.

(** The projectile a tower fires at [r]: it starts a tenth of a unit above
    the top of the tower mesh. *)
Definition shot (t : Tower) (tm : Mesh) (r : ref) : Projectile :=
  Projectile_new
    (V3.add (position tm)
       (mkVector3 0 (parameters_height (geometry tm) / 2 + 0.1) 0)%float)
    (Some r)
    (mkProjectileConfig (Some 20%float) (Some 0.1%float) (Some (damage t))).

(** Enemy [r] is a valid target of tower [t]: alive, with a mesh, and not
    farther than the range. *)
Definition valid_target (h : Heap) (t : Tower) (r : ref) : Prop :=
  exists e em tm,
    h !! r = Some e /\ isDead e = false /\ mesh e = Some em /\
    tower_mesh t = Some tm /\
    js_gt (V3.distanceToSquared (position tm) (position em))
          (range t * range t)%float = false.

(** A tower still aiming at enemy 0. *)
Definition tower_aiming : Tower := set_currentTarget tower_at_origin (Some 0).

(** The number of enemies a spawn queue still stands for: a group counts for
    its [count], and for one enemy when its [count] is below 1. *)
Definition pending (q : list SpawnInfo) : Z :=
  foldr (fun g n => (Z.max 1 (count g) + n)%Z) 0%Z q.

(** [n] calls of [startNextWave] in a row, with their answers. *)
Fixpoint start_many (n : nat) (w : WaveManager) : Res (list WaveSignal * WaveManager) :=
  match n with
  | O => Ok ([], w)
  | S k =>
      '(s, w1) ← startNextWave w;
      '(ss, w2) ← start_many k w1;
      Ok (s :: ss, w2)
  end.

(** The scheduler of the first wave with its last enemy out and gone. *)
Definition wave1_done : WaveManager :=
  mkWaveManager (Some Path_new) (waveConfigs (WaveManager_new (Some Path_new)))
    0 0.5%float [] true 0%float.

(** The scheduler after the third wave. *)
Definition wave3_done : WaveManager :=
  mkWaveManager (Some Path_new) (waveConfigs (WaveManager_new (Some Path_new)))
    2 0.5%float [] false 0%float.

(** The first wave after its first spawn, and the enemy spawned. *)
Definition wave1_after_spawn : WaveManager :=
  mkWaveManager (Some Path_new) (waveConfigs (WaveManager_new (Some Path_new)))
    0 1.0%float [mkSpawnInfo "standard" 4 1.0%float] true 0%float.

Definition standard_spawned : Enemy :=
  mkEnemy 100 1.5 10 0 (Some the_route)
    (Some (mkMesh (mkVector3 (-15) 0.1 0) (SphereGeometry 0.5)))%float.

(** ... and after the update that reports the wave complete. *)
Definition wave1_complete : WaveManager :=
  mkWaveManager (Some Path_new) (waveConfigs (WaveManager_new (Some Path_new)))
    0 0.25%float [] false 0%float.

(** ** The state of a match *)

(** Reference [r] denotes an enemy that is on the route of the game and has
    its mesh. *)
Definition live (h : Heap) (r : ref) : Prop :=
  exists e m, h !! r = Some e /\ mesh e = Some m /\ waypoints e = Some the_route.

(** What holds of a match at every moment (see [play_match_ok]): the
    scheduler is the one built at start-up; lives are between 0 and 20; the
    [enemies] array names every enemy once, and each of them is live; and
    status, scheduler, wave number and lives agree as tabulated. *)
Definition match_ok (g : Game) : Prop :=
  let w := waveManager g in
  wm_path w = Some Path_new /\
  waveConfigs w = waveConfigs (WaveManager_new (Some Path_new)) /\
  (0 <= playerLives g <= 20)%Z /\
  NoDup (enemies g) /\
  (forall r, r ∈ enemies g -> live (heap g) r) /\
  match gameStatus g with
  | S_IDLE =>
      activeWave w = false /\ enemies g = [] /\
      currentWaveNumber g = 0%Z /\ currentWaveIndex w = (-1)%Z /\
      (1 <= playerLives g)%Z
  | S_WAVE_ACTIVE =>
      activeWave w = true /\
      currentWaveNumber g = (currentWaveIndex w + 1)%Z /\
      (0 <= currentWaveIndex w <= 2)%Z /\ (1 <= playerLives g)%Z
  | S_WAVE_COMPLETE =>
      activeWave w = false /\ enemies g = [] /\ enemiesToSpawn w = [] /\
      currentWaveNumber g = (currentWaveIndex w + 1)%Z /\
      (0 <= currentWaveIndex w <= 2)%Z /\ (1 <= playerLives g)%Z
  | S_GAME_OVER =>
      activeWave w = true /\ playerLives g = 0%Z /\
      currentWaveNumber g = (currentWaveIndex w + 1)%Z /\
      (0 <= currentWaveIndex w <= 2)%Z
  | S_GAME_WON =>
      activeWave w = false /\ enemies g = [] /\
      currentWaveNumber g = 3%Z /\ currentWaveIndex w = 3%Z /\
      (1 <= playerLives g)%Z
  end.

(** ** The reap as one pass *)

Definition with_enemies (g : Game) (es : list ref) : Game :=
  set_reap g (playerGold g) (playerLives g) (gameStatus g) es (heap g).

(** What the loop over the enemies does with the enemy [r], apart from the
    array: the flag tells whether [r] is to be removed from it. *)
Definition reap_enemy (g : Game) (r : ref) (deltaTime : number)
    : Res (Flow * bool * Game) :=
  enemy ← load (heap g) r;
  enemy1 ← Enemy_update enemy deltaTime;
  if isDead enemy1 then
    Ok (Continue, true,
        set_reap g (playerGold g + value enemy1)%float (playerLives g) (gameStatus g)
          (enemies g) (<[r := Enemy_dispose enemy1]> (heap g)))
  else
    ended ← hasReachedEnd enemy1;
    if ended : bool then
      if (playerLives g - 1 <=? 0)%Z then
        Ok (Return, false,
            set_reap g (playerGold g) 0 S_GAME_OVER (enemies g) (<[r := enemy1]> (heap g)))
      else
        Ok (Continue, true,
            set_reap g (playerGold g) (playerLives g - 1)%Z (gameStatus g)
              (enemies g) (<[r := Enemy_dispose enemy1]> (heap g)))
    else
      Ok (Continue, false,
          set_reap g (playerGold g) (playerLives g) (gameStatus g)
            (enemies g) (<[r := enemy1]> (heap g))).

(** One pass over the enemies from the last to the first: [before] is the
    part of the array not yet visited, reversed; [kept] the enemies already
    visited that stay.  When the match is lost the pass stops, and the
    enemy that arrived and those not yet visited stay in the array. *)
Fixpoint reap_pass (g : Game) (before : list ref) (kept : list ref)
    (deltaTime : number) : Res Game :=
  match before with
  | [] => Ok (with_enemies g kept)
  | r :: before' =>
      '(flow, removed, g1) ← reap_enemy g r deltaTime;
      match flow with
      | Return => Ok (with_enemies g1 (rev before' ++ r :: kept))
      | Continue =>
          reap_pass g1 before' (if removed : bool then kept else r :: kept) deltaTime
      end
  end.

(** An active scheduler whose front group is named after a property that
    every object inherits. *)
Definition inherited_wave : WaveManager :=
  mkWaveManager (Some Path_new) [] 0 0%float
    [mkSpawnInfo "toString" 7 1.0%float; mkSpawnInfo "fast" 1 1.5%float] true 0%float.

(** A command other than a build click. *)
Definition not_build (c : Command) : Prop :=
  match c with
  | Build _ => False
  | _ => True
  end.

(** * Properties *)

(** ** Comparisons of JavaScript numbers *)

Lemma SFcompare_Lt_flip (a b : spec_float) :
  SFcompare a b = Some Lt -> SFcompare b a = Some Gt.
Proof.
  destruct a as [sa|sa| |sa ma ea], b as [sb|sb| |sb mb eb]; simpl;
    try discriminate; try (destruct sa; try destruct sb; simpl; congruence).
  change (Pos.compare_cont Eq ma mb) with (ma ?= mb)%positive.
  change (Pos.compare_cont Eq mb ma) with (mb ?= ma)%positive.
  rewrite (Z.compare_antisym ea eb), (Pos.compare_antisym ma mb).
  destruct sa, sb; try congruence;
    destruct (ea ?= eb)%Z; simpl; try congruence;
    destruct (ma ?= mb)%positive; simpl; congruence.
Qed.

(** [a <= b] excludes [a > b], also in the presence of [NaN]. *)
Lemma js_le_not_gt (a b : number) : js_le a b = true -> js_gt a b = false.
Proof.
  unfold js_le, js_gt. rewrite leb_spec, ltb_spec. unfold SFleb, SFltb.
  destruct (SFcompare (Prim2SF b) (Prim2SF a)) as [[]|] eqn:E; try reflexivity.
  apply SFcompare_Lt_flip in E. rewrite E. discriminate.
Qed.

(** Two numbers that a comparison tells apart are different. *)
Lemma number_neq_by_lt (a b c : number) :
  js_lt a c = true -> js_lt b c = false -> a <> b.
Proof. intros Ha Hb ->. congruence. Qed.

Lemma Ok_inj {A : Type} (a b : A) : Ok a = Ok b -> a = b.
Proof. congruence. Qed.

(** ** Enemy *)

Section Enemy_facts.

Variable e : Enemy.

Lemma hasReachedEnd_Some (wps : list Vector3) :
  waypoints e = Some wps ->
  hasReachedEnd e = Ok (Nat.leb (List.length wps) (currentWaypointIndex e)).
Proof. unfold hasReachedEnd. intros ->. reflexivity. Qed.

Lemma Enemy_update_no_mesh (dt : number) :
  mesh e = None -> Enemy_update e dt = Ok e.
Proof. unfold Enemy_update. intros ->. reflexivity. Qed.

Lemma Enemy_update_at_end (wps : list Vector3) (dt : number) :
  waypoints e = Some wps ->
  List.length wps <= currentWaypointIndex e ->
  Enemy_update e dt = Ok e.
Proof.
  intros Hw Hle. unfold Enemy_update. destruct (mesh e); [|reflexivity].
  rewrite (hasReachedEnd_Some wps Hw). simpl.
  apply Nat.leb_le in Hle. rewrite Hle. reflexivity.
Qed.

Lemma Enemy_update_en_route (m : Mesh) (wps : list Vector3) (target : Vector3)
    (dt : number) :
  mesh e = Some m ->
  waypoints e = Some wps ->
  wps !! currentWaypointIndex e = Some target ->
  Enemy_update e dt =
    Ok (if js_ge (speed e * dt)%float (V3.length (V3.subVectors target (position m)))
        then mkEnemy (health e) (speed e) (value e) (S (currentWaypointIndex e))
               (Some wps) (Some (mkMesh target (geometry m)))
        else mkEnemy (health e) (speed e) (value e) (currentWaypointIndex e)
               (Some wps)
               (Some (mkMesh
                  (V3.addScaledVector (position m)
                     (V3.normalize (V3.subVectors target (position m)))
                     (speed e * dt)%float)
                  (geometry m)))).
Proof.
  intros Hm Hw Ht. unfold Enemy_update. rewrite Hm, (hasReachedEnd_Some wps Hw).
  simpl. apply lookup_lt_Some in Ht as Hlt.
  destruct (Nat.leb_spec (List.length wps) (currentWaypointIndex e)); [lia|].
  rewrite Hw. simpl. rewrite Ht.
  destruct (js_ge _ _); unfold set_currentWaypointIndex, set_mesh, set_position;
    simpl; rewrite ?Hw; reflexivity.
Qed.

End Enemy_facts.

(** C4: [update(deltaTime)] of an enemy on its way (it has its mesh and its
    cursor is inside the route) measures the distance to the current
    waypoint and the step [speed * deltaTime]; when the step reaches the
    distance the position snaps onto the waypoint and the cursor grows by
    exactly one, whatever is left of the step being dropped; otherwise the
    position moves by the normalised direction times the step.  For an
    enemy whose cursor is at the end of the route, [update] changes
    nothing.  In every case the cursor grows by at most one. *)
Theorem Enemy_update_advance (e : Enemy) (m : Mesh) (wps : list Vector3) (dt : number) :
  mesh e = Some m ->
  waypoints e = Some wps ->
  (currentWaypointIndex e < List.length wps ->
     exists target,
       wps !! currentWaypointIndex e = Some target /\
       Enemy_update e dt =
         Ok (if js_ge (speed e * dt)%float
                  (V3.length (V3.subVectors target (position m)))
             then mkEnemy (health e) (speed e) (value e) (S (currentWaypointIndex e))
                    (Some wps) (Some (mkMesh target (geometry m)))
             else mkEnemy (health e) (speed e) (value e) (currentWaypointIndex e)
                    (Some wps)
                    (Some (mkMesh
                       (V3.addScaledVector (position m)
                          (V3.normalize (V3.subVectors target (position m)))
                          (speed e * dt)%float)
                       (geometry m))))) /\
  (List.length wps <= currentWaypointIndex e -> Enemy_update e dt = Ok e) /\
  (exists e', Enemy_update e dt = Ok e' /\
     currentWaypointIndex e' <= S (currentWaypointIndex e)).
Proof.
  intros Hm Hw.
  assert (Hend : List.length wps <= currentWaypointIndex e -> Enemy_update e dt = Ok e)
    by (intro; eapply Enemy_update_at_end; eauto).
  split; [|split; [exact Hend|]].
  - intros Hlt. destruct (lookup_lt_is_Some_2 wps _ Hlt) as [target Ht].
    exists target. split; [exact Ht|].
    apply (Enemy_update_en_route e m wps target dt Hm Hw Ht).
  - destruct (Nat.lt_ge_cases (currentWaypointIndex e) (List.length wps)) as [Hlt|Hge].
    + destruct (lookup_lt_is_Some_2 wps _ Hlt) as [target Ht].
      rewrite (Enemy_update_en_route e m wps target dt Hm Hw Ht).
      eexists. split; [reflexivity|]. destruct (js_ge _ _); simpl; lia.
    + rewrite (Hend Hge). eexists. split; [reflexivity|]. lia.
Qed.

Lemma Enemy_update_advance_witness :
  mesh enemy_en_route = Some (mkMesh (mkVector3 (-3) 0.1 0) (SphereGeometry 0.5))%float /\
  waypoints enemy_en_route = Some the_route /\
  (exists e', Enemy_update enemy_en_route 0.5%float = Ok e' /\
     currentWaypointIndex e' <= 2).
Proof.
  split; [reflexivity|]. split; [reflexivity|].
  exact (proj2 (proj2 (Enemy_update_advance enemy_en_route _ the_route 0.5%float
                         eq_refl eq_refl))).
Defined.

(** A step that would cover several segments still moves the cursor by one:
    a frame of 100 seconds takes the sample enemy to the second waypoint
    only. *)
Example Enemy_update_huge_step :
  Enemy_update enemy_en_route 100%float =
    Ok (mkEnemy 100 1.5 10 2 (Some the_route)
          (Some (mkMesh (mkVector3 0 0.1 0) (SphereGeometry 0.5))))%float.
Proof. vm_compute. reflexivity. Qed.

(** The cursor of an enemy stays within its route and never moves back,
    whatever single operation is applied. *)
Lemma Enemy_apply_cursor (wps : list Vector3) (op : EnemyOp) (e : Enemy) :
  waypoints e = Some wps ->
  currentWaypointIndex e <= List.length wps ->
  exists e',
    Enemy_apply op e = Ok e' /\
    waypoints e' = Some wps /\
    currentWaypointIndex e <= currentWaypointIndex e' /\
    currentWaypointIndex e' <= List.length wps.
Proof.
  intros Hw Hle. destruct op as [dt|amount|]; simpl.
  - destruct (mesh e) as [m|] eqn:Hm.
    + destruct (Nat.lt_ge_cases (currentWaypointIndex e) (List.length wps)) as [Hlt|Hge].
      * destruct (lookup_lt_is_Some_2 wps _ Hlt) as [target Ht].
        rewrite (Enemy_update_en_route e m wps target dt Hm Hw Ht).
        eexists. split; [reflexivity|]. destruct (js_ge _ _); simpl; repeat split; lia.
      * rewrite (Enemy_update_at_end e wps dt Hw Hge). eauto.
    + rewrite (Enemy_update_no_mesh e dt Hm). eauto.
  - eexists. split; [reflexivity|]. simpl. auto.
  - eexists. split; [reflexivity|]. simpl. auto.
Qed.

Lemma Enemy_run_cursor (wps : list Vector3) (ops : list EnemyOp) :
  forall e : Enemy,
    waypoints e = Some wps ->
    currentWaypointIndex e <= List.length wps ->
    exists e',
      Enemy_run ops e = Ok e' /\
      waypoints e' = Some wps /\
      currentWaypointIndex e <= currentWaypointIndex e' /\
      currentWaypointIndex e' <= List.length wps.
Proof.
  induction ops as [|op ops IH]; intros e Hw Hle; simpl.
  - eauto.
  - destruct (Enemy_apply_cursor wps op e Hw Hle) as (e1 & -> & Hw1 & Hmono & Hle1).
    simpl. destruct (IH e1 Hw1 Hle1) as (e' & -> & Hw' & Hmono' & Hle').
    exists e'. repeat split; auto; lia.
Qed.

Lemma Enemy_new_route (p : Path) (wps : list Vector3) (config : EnemyConfig) :
  getWaypoints p = Some wps ->
  exists e0,
    Enemy_new (Some p) config = Ok e0 /\
    waypoints e0 = Some wps /\
    currentWaypointIndex e0 = 0.
Proof.
  intros Hw. unfold Enemy_new. destruct (finalConfig config) as [[[h s] v] size].
  simpl. rewrite Hw. destruct wps; eexists; (split; [reflexivity|]); simpl; auto.
Qed.

(** C5: an enemy built on a route starts with cursor 0; after any history of
    operations ([update], [takeDamage], [dispose]) any further operation
    completes, leaves the cursor where it was or above, and leaves it at
    most at the length of the route. *)
Theorem routeIndex_monotone_bounded (p : Path) (wps : list Vector3)
    (config : EnemyConfig) (history : list EnemyOp) (op : EnemyOp) :
  getWaypoints p = Some wps ->
  exists e0 e e',
    Enemy_new (Some p) config = Ok e0 /\
    currentWaypointIndex e0 = 0 /\
    Enemy_run history e0 = Ok e /\
    Enemy_apply op e = Ok e' /\
    currentWaypointIndex e <= currentWaypointIndex e' /\
    currentWaypointIndex e' <= List.length wps.
Proof.
  intros Hw.
  destruct (Enemy_new_route p wps config Hw) as (e0 & Hnew & Hw0 & Hi0).
  destruct (Enemy_run_cursor wps history e0 Hw0 ltac:(lia)) as (e & Hrun & Hwe & _ & Hle).
  destruct (Enemy_apply_cursor wps op e Hwe Hle) as (e' & Hop & _ & Hmono & Hle').
  exists e0, e, e'. auto 10.
Qed.

Lemma routeIndex_monotone_bounded_witness :
  getWaypoints Path_new = Some the_route /\
  exists e0 e e',
    Enemy_new (Some Path_new) empty_config = Ok e0 /\
    currentWaypointIndex e0 = 0 /\
    Enemy_run [OpUpdate 1; OpTakeDamage 30; OpUpdate 20]%float e0 = Ok e /\
    Enemy_apply (OpUpdate 20%float) e = Ok e' /\
    currentWaypointIndex e <= currentWaypointIndex e' /\
    currentWaypointIndex e' <= List.length the_route.
Proof.
  split; [reflexivity|].
  exact (routeIndex_monotone_bounded Path_new the_route empty_config
           [OpUpdate 1; OpTakeDamage 30; OpUpdate 20]%float (OpUpdate 20%float) eq_refl).
Defined.

(** C8, as stated, fails: built on an empty route, the constructor returns
    normally and the enemy object exists. *)
Lemma Enemy_new_empty_route_creates :
  Enemy_new (Some empty_path) empty_config =
    Ok (mkEnemy 100 2 10 0 (Some []) None)%float.
Proof. reflexivity. Qed.

(** C8, amended: on a path whose waypoint list is missing or empty the
    constructor returns early instead of aborting; the enemy object exists
    with its stats and cursor 0 but has no mesh, hence no position.  Only a
    missing path object makes the construction abort. *)
Theorem Enemy_new_bad_route (p : Path) (config : EnemyConfig) :
  getWaypoints p = None \/ getWaypoints p = Some [] ->
  (exists e,
     Enemy_new (Some p) config = Ok e /\
     mesh e = None /\
     currentWaypointIndex e = 0 /\
     waypoints e = getWaypoints p /\
     (health e, speed e, value e) =
       (default 100 (cfg_health config), default 2 (cfg_speed config),
        default 10 (cfg_value config))%float) /\
  is_Ok (Enemy_new None config) = false.
Proof.
  intros Hbad. split; [|reflexivity].
  unfold Enemy_new, finalConfig. simpl.
  destruct Hbad as [-> | ->]; eexists; (split; [reflexivity|]); simpl; auto.
Qed.

Lemma Enemy_new_bad_route_witness :
  (getWaypoints empty_path = None \/ getWaypoints empty_path = Some []) /\
  exists e, Enemy_new (Some empty_path) empty_config = Ok e /\ mesh e = None.
Proof.
  split; [right; reflexivity|].
  destruct (Enemy_new_bad_route empty_path empty_config (or_intror eq_refl))
    as [(e & Hnew & Hmesh & _) _].
  exists e. split; assumption.
Defined.

(** Such an enemy is a member of the match like any other: on an empty
    route the scheduler puts it in the [enemies] array. *)
Example WaveManager_update_spawns_on_empty_route :
  exists w',
    WaveManager_update
      (mkWaveManager (Some empty_path) [] 0 0%float
         [mkSpawnInfo "standard" 1 1.0%float] true 0%float)
      [] [] 0.1%float =
    Ok (None, w', [0], [mkEnemy 100 1.5 10 0 (Some []) None]%float).
Proof. eexists. vm_compute. reflexivity. Qed.

(** ** WaveManager *)

Lemma startNextWave_started_active (w0 w : WaveManager) :
  startNextWave w0 = Ok (WAVE_STARTED, w) -> activeWave w = true.
Proof.
  unfold startNextWave. destruct (activeWave w0); [discriminate|].
  destruct (_ <=? _)%Z; [discriminate|].
  destruct (waveConfigs_at _ _); simpl; [|discriminate].
  intros [= <-]. reflexivity.
Qed.

(** C7: while a wave is active (in particular right after a call that
    started one) [startNextWave] answers [WAVE_ACTIVE] and hands back the
    very same scheduler: wave index, spawn queue, timer and flag are
    untouched. *)
Theorem startNextWave_while_active (w0 w : WaveManager) :
  activeWave w = true \/ startNextWave w0 = Ok (WAVE_STARTED, w) ->
  startNextWave w = Ok (WAVE_ACTIVE, w).
Proof.
  intros H.
  assert (Ha : activeWave w = true)
    by (destruct H as [H|H]; [exact H | exact (startNextWave_started_active _ _ H)]).
  unfold startNextWave. rewrite Ha. reflexivity.
Qed.

Lemma startNextWave_while_active_witness :
  startNextWave (WaveManager_new (Some Path_new)) = Ok (WAVE_STARTED, wave1_started) /\
  startNextWave wave1_started = Ok (WAVE_ACTIVE, wave1_started) /\
  enemiesToSpawn wave1_started = [mkSpawnInfo "standard" 5 1.0%float].
Proof.
  assert (H : startNextWave (WaveManager_new (Some Path_new)) =
              Ok (WAVE_STARTED, wave1_started)) by (vm_compute; reflexivity).
  split; [exact H|]. split; [|reflexivity].
  exact (startNextWave_while_active _ wave1_started (or_intror H)).
Defined.

Lemma check_completion_spec (w : WaveManager) (es : list ref) (h : Heap)
    (sig : option WaveSignal) (w' : WaveManager) (es' : list ref) (h' : Heap) :
  activeWave w = true ->
  check_completion w es h = (sig, w', es', h') ->
  es' = es /\ h' = h /\ enemiesToSpawn w' = enemiesToSpawn w /\
  (sig = Some WAVE_COMPLETE <-> enemiesToSpawn w' = [] /\ es' = []) /\
  (sig = Some WAVE_COMPLETE -> activeWave w' = false) /\
  (sig <> Some WAVE_COMPLETE -> sig = None /\ activeWave w' = true).
Proof.
  intros Ha. unfold check_completion.
  destruct (enemiesToSpawn w) eqn:Hq; [destruct es|]; intros [= <- <- <- <-];
    simpl; rewrite ?Hq; repeat split; try congruence; intros []; congruence.
Qed.

(** C3, as stated, fails: the update that drops an unknown group leaves the
    queue and the enemy collection empty and gives no signal. *)
Lemma WaveManager_update_drop_no_signal :
  exists w',
    WaveManager_update boss_wave [] [] 0.1%float = Ok (None, w', [], []) /\
    enemiesToSpawn w' = [] /\
    activeWave w' = true.
Proof. eexists. split; [vm_compute; reflexivity|]. split; reflexivity. Qed.

(** The completion that the dropping update withholds is signalled by the
    next one. *)
Example WaveManager_update_drop_then_complete :
  exists w1 w2,
    WaveManager_update boss_wave [] [] 0.1%float = Ok (None, w1, [], []) /\
    WaveManager_update w1 [] [] 0.1%float = Ok (Some WAVE_COMPLETE, w2, [], []) /\
    activeWave w2 = false.
Proof.
  do 2 eexists. split; [vm_compute; reflexivity|].
  split; [vm_compute; reflexivity|reflexivity].
Qed.

(** C3, amended: an update of an active scheduler that does not take the
    unknown-type exit signals [WAVE_COMPLETE] exactly when, spawn handling
    done, the queue and the enemy collection are both empty, and it then
    clears the active flag; the update that drops an unknown group gives no
    signal and stays active; an update of an idle scheduler gives no signal
    and changes nothing. *)
Theorem WaveManager_update_complete_iff (w : WaveManager) (es : list ref) (h : Heap)
    (dt : number) (sig : option WaveSignal) (w' : WaveManager) (es' : list ref)
    (h' : Heap) :
  WaveManager_update w es h dt = Ok (sig, w', es', h') ->
  if activeWave w then
    (sig = Some WAVE_COMPLETE <->
       drops_unknown_group w dt = false /\ enemiesToSpawn w' = [] /\ es' = []) /\
    (sig = Some WAVE_COMPLETE -> activeWave w' = false) /\
    (sig <> Some WAVE_COMPLETE -> sig = None /\ activeWave w' = true)
  else sig = None /\ w' = w /\ es' = es /\ h' = h.
Proof.
  unfold WaveManager_update, drops_unknown_group.
  destruct (activeWave w) eqn:Ha; simpl.
  2: { intros [= <- <- <- <-]. auto. }
  destruct (enemiesToSpawn w) as [|g rest] eqn:Hq.
  - intros Hc. apply Ok_inj, check_completion_spec in Hc; [|exact Ha]. tauto.
  - destruct (js_le _ _) eqn:Ht; simpl.
    + destruct (ENEMY_CONFIGS (type g)) as [cfg|] eqn:Hcfg.
      * rewrite bool_decide_eq_false_2 by discriminate.
        destruct (Enemy_new _ _) as [enemy|]; simpl; [|discriminate].
        intros Hc. apply Ok_inj, check_completion_spec in Hc.
        { tauto. }
        destruct (_ <=? _)%Z; [destruct rest|]; exact Ha.
      * rewrite bool_decide_eq_true_2 by reflexivity.
        intros [= <- <- <- <-]. simpl. rewrite Ha.
        repeat split; try congruence; intros []; congruence.
    + intros Hc. apply Ok_inj, check_completion_spec in Hc; [|exact Ha]. tauto.
Qed.

Lemma WaveManager_update_complete_iff_witness :
  exists w',
    WaveManager_update wave1_started [] [] 0.1%float = Ok (None, w', [0], [
      mkEnemy 100 1.5 10 0 (Some the_route)
        (Some (mkMesh (mkVector3 (-15) 0.1 0) (SphereGeometry 0.5)))%float]) /\
    activeWave w' = true.
Proof.
  eexists. split; [vm_compute; reflexivity|].
  refine (proj2 (proj2 (proj2
    (WaveManager_update_complete_iff wave1_started [] [] 0.1%float None _ _ _ _)) _)).
  - vm_compute. reflexivity.
  - discriminate.
Defined.

(** ** Tower *)

Section Tower_facts.

Variables (h : Heap) (t : Tower) (tm : Mesh).
Hypothesis Htm : tower_mesh t = Some tm.

Lemma findTarget_scan_passed (r : ref) (rest : list ref) :
  passed_over h t tm r ->
  findTarget_scan h t (range t * range t)%float (r :: rest) =
  findTarget_scan h t (range t * range t)%float rest.
Proof.
  intros (e & He & Hskip). simpl. unfold load. rewrite He. simpl.
  destruct Hskip as [-> | (-> & em & Hem & Hout)]; [reflexivity|].
  rewrite Htm, Hem. simpl. unfold within_range in Hout. rewrite Hout. reflexivity.
Qed.

Lemma findTarget_scan_reach (r : ref) (rest : list ref) :
  in_reach h t tm r ->
  findTarget_scan h t (range t * range t)%float (r :: rest) = Ok (Some r).
Proof.
  intros (e & em & He & Halive & Hem & Hin). simpl. unfold load. rewrite He. simpl.
  rewrite Halive, Htm, Hem. simpl. unfold within_range in Hin. rewrite Hin. reflexivity.
Qed.

Lemma findTarget_scan_first (es : list ref) (found : option ref) :
  first_in_reach h t tm es found ->
  findTarget_scan h t (range t * range t)%float es = Ok found.
Proof.
  intros [es' Hall | pre r post Hall Hr].
  - induction Hall as [|r rest Hr _ IH]; [reflexivity|].
    rewrite findTarget_scan_passed; assumption.
  - induction Hall as [|r0 rest Hr0 _ IH]; simpl app.
    + apply findTarget_scan_reach; assumption.
    + rewrite findTarget_scan_passed; assumption.
Qed.

(** The check that follows the loop never rejects what the loop found. *)
Lemma target_invalid_in_reach (c : option ref) (r : ref) :
  in_reach h t tm r ->
  target_invalid h (set_currentTarget t c) (Some r) = Ok false.
Proof.
  intros (e & em & He & Halive & Hem & Hin). simpl. unfold load. rewrite He. simpl.
  rewrite Halive, Htm, Hem. simpl. f_equal.
  apply js_le_not_gt. exact Hin.
Qed.

End Tower_facts.

(** C6: [findTarget] makes the first enemy of the array, in the array's
    order, that is alive and whose squared distance to the tower is at most
    [range * range] the target; the scan stops there, so the enemies behind
    the match play no part; when every enemy is dead or out of range the
    target becomes [null].  Nothing else of the tower changes, and the
    result is determined by the array and its order. *)
Theorem findTarget_first_found (h : Heap) (t : Tower) (tm : Mesh) (es : list ref)
    (found : option ref) :
  tower_mesh t = Some tm ->
  first_in_reach h t tm es found ->
  findTarget h t es = Ok (set_currentTarget t found).
Proof.
  intros Htm Hfirst. unfold findTarget.
  rewrite (findTarget_scan_first h t tm Htm es found Hfirst). simpl.
  destruct Hfirst as [es' _ | pre r post _ Hr]; [reflexivity|].
  rewrite (target_invalid_in_reach h t tm Htm (Some r) r Hr). reflexivity.
Qed.

Lemma findTarget_first_found_witness :
  tower_mesh tower_at_origin =
    Some (mkMesh (mkVector3 0 0.75 0) (BoxGeometry 0.8 1.5 0.8))%float /\
  findTarget five_enemies tower_at_origin [0; 1; 2; 3; 4] =
    Ok (set_currentTarget tower_at_origin (Some 2)).
Proof.
  split; [reflexivity|].
  apply (findTarget_first_found five_enemies tower_at_origin
           (mkMesh (mkVector3 0 0.75 0) (BoxGeometry 0.8 1.5 0.8))%float
           ([0; 1] ++ 2 :: [3; 4]) (Some 2) eq_refl).
  apply first_some.
  - repeat constructor.
    + eexists. split; [reflexivity|]. left. reflexivity.
    + eexists. split; [reflexivity|]. right. split; [reflexivity|].
      eexists. split; reflexivity.
  - do 2 eexists. repeat split; reflexivity.
Defined.

(** First found, not nearest: enemy 3 is nearer to the tower than enemy 2,
    yet the order of the array decides, in either order. *)
Example findTarget_not_nearest :
  findTarget five_enemies tower_at_origin [2; 3] =
    Ok (set_currentTarget tower_at_origin (Some 2)) /\
  findTarget five_enemies tower_at_origin [3; 2] =
    Ok (set_currentTarget tower_at_origin (Some 3)).
Proof. split; vm_compute; reflexivity. Qed.

(** On an array whose enemies all have a mesh, the first enemy in reach is
    what a left-to-right search returns. *)
Lemma first_in_reach_find (h : Heap) (t : Tower) (tm : Mesh) (es : list ref) :
  Forall (fun r => exists e em, h !! r = Some e /\ mesh e = Some em) es ->
  first_in_reach h t tm es (find (in_reach_b h t tm) es).
Proof.
  intros Hall.
  induction Hall as [|r rest (e & em & He & Hem) Hall IH]; simpl.
  - apply first_none. constructor.
  - unfold in_reach_b at 1. rewrite He, Hem.
    destruct (isDead e) eqn:Hd; simpl.
    + assert (Hp : passed_over h t tm r) by (exists e; auto).
      inversion IH as [es' Hall' Heq Hf | pre r' post Hpre Hr' Heq Hf].
      * apply first_none. constructor; assumption.
      * apply (first_some h t tm (r :: pre) r' post); [constructor; assumption|assumption].
    + destruct (within_range t tm em) eqn:Hin.
      * apply (first_some h t tm [] r rest); [constructor|].
        exists e, em. auto.
      * assert (Hp : passed_over h t tm r).
        { exists e. split; [assumption|]. right. split; [assumption|]. eauto. }
        inversion IH as [es' Hall' Heq Hf | pre r' post Hpre Hr' Heq Hf].
        -- apply first_none. constructor; assumption.
        -- apply (first_some h t tm (r :: pre) r' post);
             [constructor; assumption|assumption].
Qed.

#[local] Arguments target_invalid : simpl never.

Lemma findTarget_only_target (h : Heap) (t t' : Tower) (es : list ref) :
  findTarget h t es = Ok t' -> exists c, t' = set_currentTarget t c.
Proof.
  unfold findTarget. destruct (findTarget_scan _ _ _ _) as [[r|]|]; simpl;
    [| intros [= <-]; eauto | discriminate].
  destruct (target_invalid _ _ _) as [[]|]; simpl;
    try discriminate; intros [= <-]; eauto.
Qed.

Lemma attack_outcome (h : Heap) (t t' : Tower) (ps ps' : list Projectile)
    (target : option ref) :
  attack h t ps target = Ok (t', ps') ->
  (ps' = ps /\ fireCooldown t' = fireCooldown t) \/
  (exists p, ps' = ps ++ [p] /\ fireCooldown t' = (1 / fireRate t)%float).
Proof.
  unfold attack. destruct target as [r|]; [|intros [= <- <-]; auto].
  destruct (load h r) as [e|]; simpl; [|discriminate].
  destruct (isDead e); [intros [= <- <-]; auto|].
  destruct (deref _ _) as [m|]; simpl; [|discriminate].
  intros [= <- <-]. right. eauto.
Qed.

(** C9, as stated, fails: a tower whose cooldown is 0 keeps it at 0 through
    an update of half a second. *)
Lemma Tower_update_idle_cooldown_stays :
  exists t',
    Tower_update [] tower_at_origin [] 0.5%float [] = Ok (t', []) /\
    fireCooldown t' = 0%float /\
    fireCooldown t' <> (fireCooldown tower_at_origin - 0.5)%float.
Proof.
  eexists. split; [vm_compute; reflexivity|]. split; [reflexivity|].
  apply not_eq_sym, (number_neq_by_lt _ _ 0%float); vm_compute; reflexivity.
Qed.

(** C9, amended: an update subtracts [deltaTime] from the cooldown only
    when the cooldown is above 0 on entry, and then without a floor; a
    cooldown that is 0, negative or [NaN] is left alone.  Whether the tower
    has a target plays no part in this.  The value so obtained is the
    cooldown after the update, unless the tower fires, which requires that
    value to be at most 0 and resets the cooldown to [1 / fireRate]. *)
Theorem Tower_update_cooldown (h : Heap) (t : Tower) (ps : list Projectile)
    (dt : number) (es : list ref) (t' : Tower) (ps' : list Projectile) :
  Tower_update h t ps dt es = Ok (t', ps') ->
  (ps' = ps /\ fireCooldown t' = cooled t dt) \/
  (exists p, ps' = ps ++ [p] /\
     js_le (cooled t dt) 0 = true /\
     fireCooldown t' = (1 / fireRate t)%float).
Proof.
  unfold Tower_update.
  set (t1 := if js_gt (fireCooldown t) 0 then _ else t).
  assert (Hc1 : fireCooldown t1 = cooled t dt)
    by (unfold t1, cooled; destruct (js_gt _ _); reflexivity).
  assert (Hr1 : fireRate t1 = fireRate t)
    by (unfold t1; destruct (js_gt _ _); reflexivity).
  clearbody t1.
  destruct (target_invalid h t1 (currentTarget t1)) as [bad|]; simpl; [|discriminate].
  assert (Hstep : forall t2,
            (if bad then findTarget h t1 es else Ok t1) = Ok t2 ->
            fireCooldown t2 = cooled t dt /\ fireRate t2 = fireRate t).
  { intros t2 H2. destruct bad.
    - apply findTarget_only_target in H2 as [c ->]. simpl. auto.
    - injection H2 as <-. auto. }
  destruct (if bad then _ else _) as [t2|]; simpl; [|discriminate].
  destruct (Hstep t2 eq_refl) as [Hc2 Hr2].
  destruct (currentTarget t2) as [r|]; [|intros [= <- <-]; auto].
  destruct (js_le (fireCooldown t2) 0) eqn:Hready; [|intros [= <- <-]; auto].
  intros Hatt. apply attack_outcome in Hatt as [[-> Hc] | (p & -> & Hc)].
  - left. split; congruence.
  - right. exists p. repeat split; congruence.
Qed.

(** The witness is a reloading tower whose cooldown is pushed below 0. *)
Lemma Tower_update_cooldown_witness :
  exists t',
    Tower_update [] tower_reloading [] 1%float [] = Ok (t', []) /\
    fireCooldown t' = (1 / 1.2 - 1)%float /\
    js_lt (fireCooldown t') 0 = true.
Proof.
  eexists. split; [vm_compute; reflexivity|].
  destruct (Tower_update_cooldown [] tower_reloading [] 1%float [] _ []
              ltac:(vm_compute; reflexivity)) as [[_ Hc] | (p & Hp & _)].
  - split; [|vm_compute; reflexivity]. exact Hc.
  - discriminate Hp.
Defined.

(** ** Projectile *)

Section Projectile_facts.

Variables (h : Heap) (p : Projectile) (dt : number).

Lemma Projectile_update_no_target :
  targetEnemy p = None -> Projectile_update h p dt = Ok (INVALID_TARGET, p, h).
Proof. unfold Projectile_update. intros ->. reflexivity. Qed.

(** A target that died is detected: no damage, nothing moves. *)
Lemma Projectile_update_dead_target (r : ref) (e : Enemy) :
  targetEnemy p = Some r -> h !! r = Some e -> isDead e = true ->
  Projectile_update h p dt = Ok (INVALID_TARGET, p, h).
Proof.
  unfold Projectile_update, load. intros -> -> Hd. simpl. rewrite Hd. reflexivity.
Qed.

(** A target that was disposed while alive is not detected: reading the
    position of its mesh throws. *)
Lemma Projectile_update_disposed_alive (r : ref) (e : Enemy) :
  targetEnemy p = Some r -> h !! r = Some e -> isDead e = false -> mesh e = None ->
  Projectile_update h p dt = Throw (TypeError "reading 'position'").
Proof.
  unfold Projectile_update, load. intros -> -> Hd Hm. simpl. rewrite Hd, Hm.
  reflexivity.
Qed.

End Projectile_facts.

(** C1 does not hold of the code.  Seventeen frames into [last_stretch]
    enemy 0 has reached the end of the route alive: it has been removed from
    the array and disposed, a life is gone, and the projectile the tower
    fired at it is still in flight.  In the next frame the update of that
    projectile does not answer [INVALID_TARGET]: it throws, and so does the
    frame. *)
Theorem Projectile_update_throws_on_arrived_target :
  exists (g : Game) (p : Projectile) (e : Enemy),
    play last_stretch (repeat (Frame 0.016%float) 17) = Ok g /\
    playerLives g = 19%Z /\
    enemies g = [1] /\
    heap g !! 0 = Some e /\
    isDead e = false /\ hasReachedEnd e = Ok true /\ mesh e = None /\
    projectiles g = [p] /\
    targetEnemy p = Some 0 /\
    Projectile_update (heap g) p 0.016%float = Throw (TypeError "reading 'position'") /\
    animate g 0.016%float = Throw (TypeError "reading 'position'").
Proof.
  do 3 eexists. split; [vm_compute; reflexivity|].
  repeat split; vm_compute; reflexivity.
Qed.

(** The same at the level of one call. *)
Example Projectile_update_arrived_alive :
  Projectile_update [arrived_alive] projectile_to_0 0.016%float =
    Throw (TypeError "reading 'position'").
Proof.
  apply (Projectile_update_disposed_alive _ _ _ 0 arrived_alive); reflexivity.
Qed.

(** ** The animation loop *)

(** Once the match has ended a frame does nothing. *)
Lemma animate_ended (g : Game) (dt : number) :
  game_ended (gameStatus g) = true -> animate g dt = Ok g.
Proof. unfold animate. intros ->. reflexivity. Qed.

Lemma play_frames_ended (g : Game) (dts : list number) :
  game_ended (gameStatus g) = true -> play g (map Frame dts) = Ok g.
Proof.
  intros Hend. induction dts as [|dt dts IH]; simpl; [reflexivity|].
  rewrite (animate_ended g dt Hend). simpl. exact IH.
Qed.

Section Reap.

Variables (g : Game) (i : nat) (dt : number) (r : ref) (e e1 : Enemy).
Hypothesis Hi : enemies g !! i = Some r.
Hypothesis Hr : heap g !! r = Some e.
Hypothesis Hupd : Enemy_update e dt = Ok e1.

(** A dead enemy is paid for and destroyed, wherever it stands. *)
Lemma animate_enemy_dead :
  isDead e1 = true ->
  animate_enemy g i dt =
    Ok (Continue,
        set_reap g (playerGold g + value e1)%float (playerLives g) (gameStatus g)
          (delete i (enemies g)) (<[r := Enemy_dispose e1]> (heap g))).
Proof.
  intros Hd. unfold animate_enemy, load. rewrite Hi. simpl. rewrite Hr. simpl.
  rewrite Hupd. simpl. rewrite Hd. reflexivity.
Qed.

(** A live enemy that arrives while lives remain costs one life and is
    destroyed. *)
Lemma animate_enemy_arrived :
  isDead e1 = false -> hasReachedEnd e1 = Ok true -> (1 < playerLives g)%Z ->
  animate_enemy g i dt =
    Ok (Continue,
        set_reap g (playerGold g) (playerLives g - 1)%Z (gameStatus g)
          (delete i (enemies g)) (<[r := Enemy_dispose e1]> (heap g))).
Proof.
  intros Hd He Hl. unfold animate_enemy, load. rewrite Hi. simpl. rewrite Hr. simpl.
  rewrite Hupd. simpl. rewrite Hd, He. simpl.
  destruct (Z.leb_spec (playerLives g - 1) 0); [lia|reflexivity].
Qed.

(** A live enemy that arrives on the last life ends the match at once:
    lives become 0, the loop is left, and the enemy stays in the array
    with its mesh. *)
Lemma animate_enemy_last_life :
  isDead e1 = false -> hasReachedEnd e1 = Ok true -> (playerLives g <= 1)%Z ->
  animate_enemy g i dt =
    Ok (Return,
        set_reap g (playerGold g) 0 S_GAME_OVER (enemies g) (<[r := e1]> (heap g))).
Proof.
  intros Hd He Hl. unfold animate_enemy, load. rewrite Hi. simpl. rewrite Hr. simpl.
  rewrite Hupd. simpl. rewrite Hd, He. simpl.
  destruct (Z.leb_spec (playerLives g - 1) 0); [reflexivity|lia].
Qed.

End Reap.

(** C2 does not hold of the code.  With no tower built, three waves are let
    through in frames of a quarter of a second.  On the frame in which the
    twentieth enemy arrives the lives go from 1 to 0 and the status becomes
    [GAME_OVER], and the loop is left before that enemy is destroyed: it is
    still in the [enemies] array, at the end of the route, with its mesh.
    Later frames change nothing. *)
Theorem game_over_leaves_arrived_enemy :
  exists (g0 g : Game) (e : Enemy),
    play Game_init (wave 138 ++ wave 150 ++ wave 100) = Ok g0 /\
    gameStatus g0 = S_WAVE_ACTIVE /\ playerLives g0 = 1%Z /\
    animate g0 0.25%float = Ok g /\
    gameStatus g = S_GAME_OVER /\ playerLives g = 0%Z /\
    enemies g = enemies g0 /\
    enemies g !! 12 = Some 31 /\
    heap g !! 31 = Some e /\
    isDead e = false /\ hasReachedEnd e = Ok true /\
    mesh e = Some (mkMesh (mkVector3 15 0.1 15) (SphereGeometry 0.4))%float /\
    forall dts : list number, play g (map Frame dts) = Ok g.
Proof.
  do 3 eexists. split; [vm_compute; reflexivity|].
  do 2 (split; [vm_compute; reflexivity|]).
  split; [vm_compute; reflexivity|].
  do 8 (split; [vm_compute; reflexivity|]).
  intros dts. apply play_frames_ended. vm_compute. reflexivity.
Qed.

(** C10: in the reap step of a frame, an enemy that after its own update
    is dead and at the end of the route is treated as dead: its value is
    added to the gold, it is disposed and removed from the array, the lives
    stay as they are and the loop goes on. *)
Theorem dead_before_arrived (g : Game) (i : nat) (dt : number) (r : ref)
    (e e1 : Enemy) :
  enemies g !! i = Some r ->
  heap g !! r = Some e ->
  Enemy_update e dt = Ok e1 ->
  isDead e1 = true ->
  hasReachedEnd e1 = Ok true ->
  exists g',
    animate_enemy g i dt = Ok (Continue, g') /\
    playerGold g' = (playerGold g + value e1)%float /\
    playerLives g' = playerLives g /\
    gameStatus g' = gameStatus g /\
    enemies g' = delete i (enemies g) /\
    heap g' = <[r := Enemy_dispose e1]> (heap g).
Proof.
  intros Hi Hr Hupd Hd _. eexists. split.
  - apply (animate_enemy_dead g i dt r e e1 Hi Hr Hupd Hd).
  - repeat split.
Qed.

Lemma dead_before_arrived_witness :
  exists g',
    animate_enemy (photo_finish 0) 0 0.016%float = Ok (Continue, g') /\
    playerGold g' = 110%float /\
    playerLives g' = 20%Z /\
    enemies g' = [].
Proof.
  destruct (dead_before_arrived (photo_finish 0) 0 0.016%float 0 (at_the_line 0)
              (mkEnemy 0 1.5 10 4 (Some the_route)
                 (Some (mkMesh (mkVector3 15 0.1 15) (SphereGeometry 0.5))))%float)
    as (g' & Hg & Hgold & Hlives & _ & Hes & _);
    try (vm_compute; reflexivity).
  exists g'. split; [exact Hg|]. split; [|split].
  - rewrite Hgold. vm_compute. reflexivity.
  - rewrite Hlives. reflexivity.
  - rewrite Hes. reflexivity.
Defined.

(** A whole frame: the projectile takes the last 30 health points of an
    enemy that crosses the line in the same frame.  The enemy counts as
    killed: 10 gold, no life lost. *)
Example photo_finish_frame :
  exists g',
    animate (photo_finish 30) 0.016%float = Ok g' /\
    playerGold g' = 110%float /\ playerLives g' = 20%Z /\
    enemies g' = [] /\ projectiles g' = [] /\
    (exists e, heap g' !! 0 = Some e /\ isDead e = true /\
               hasReachedEnd e = Ok true /\ mesh e = None).
Proof.
  eexists. split; [vm_compute; reflexivity|].
  repeat split. eexists. repeat split.
Qed.

(** ** Cursors over the course of a match *)

Lemma later_refl (e : Enemy) : later e e.
Proof. split; [reflexivity|lia]. Qed.

Lemma later_trans (e1 e2 e3 : Enemy) : later e1 e2 -> later e2 e3 -> later e1 e3.
Proof. intros [Hw1 Hi1] [Hw2 Hi2]. split; [congruence|lia]. Qed.

Lemma heap_step_refl (h : Heap) : heap_step h h.
Proof. split; [|auto]. intros r e He. exists e. split; [exact He|apply later_refl]. Qed.

Lemma heap_step_trans (h1 h2 h3 : Heap) :
  heap_step h1 h2 -> heap_step h2 h3 -> heap_step h1 h3.
Proof.
  intros [Hl1 Hok1] [Hl2 Hok2]. split; [|intros Hall; exact (Hok2 (Hok1 Hall))].
  intros r e He. destruct (Hl1 r e He) as (e2 & He2 & Hlat2).
  destruct (Hl2 r e2 He2) as (e3 & He3 & Hlat3).
  exists e3. split; [exact He3|exact (later_trans _ _ _ Hlat2 Hlat3)].
Qed.

(** Overwriting an enemy with a later state of itself. *)
Lemma heap_step_insert (h : Heap) (r : ref) (e e' : Enemy) :
  h !! r = Some e -> later e e' -> (cursor_ok e -> cursor_ok e') ->
  heap_step h (<[r := e']> h).
Proof.
  intros He Hlat Hok. apply lookup_lt_Some in He as Hlt. split.
  - intros r0 e0 He0. destruct (decide (r0 = r)) as [->|Hne].
    + exists e'. rewrite list_lookup_insert_eq by exact Hlt.
      split; [reflexivity|congruence].
    + exists e0. rewrite list_lookup_insert_ne by congruence.
      split; [exact He0|apply later_refl].
  - intros Hall r0 e0. destruct (decide (r0 = r)) as [->|Hne].
    + rewrite list_lookup_insert_eq by exact Hlt. intros [= <-]. eauto.
    + rewrite list_lookup_insert_ne by congruence. apply Hall.
Qed.

(** Allocating a fresh enemy. *)
Lemma heap_step_alloc (h : Heap) (e : Enemy) :
  cursor_ok e -> heap_step h (h ++ [e]).
Proof.
  intros Hok. split.
  - intros r e0 He0. exists e0. split; [|apply later_refl].
    apply lookup_app_l_Some. exact He0.
  - intros Hall r e0 He0. apply lookup_app_Some in He0 as [He0|[_ He0]]; [eauto|].
    apply list_lookup_singleton_Some in He0 as [_ <-]. exact Hok.
Qed.

Lemma Enemy_update_later (e e1 : Enemy) (dt : number) :
  Enemy_update e dt = Ok e1 -> later e e1 /\ (cursor_ok e -> cursor_ok e1).
Proof.
  unfold Enemy_update. destruct (mesh e) as [m|]; [|intros [= <-]; split; [apply later_refl|auto]].
  unfold hasReachedEnd. destruct (waypoints e) as [wps|] eqn:Hw; simpl; [|discriminate].
  destruct (Nat.leb_spec (List.length wps) (currentWaypointIndex e)) as [Hge|Hlt];
    [intros [= <-]; split; [apply later_refl|auto]|].
  destruct (wps !! currentWaypointIndex e);
    [|intros [= <-]; split; [apply later_refl|auto]].
  destruct (js_ge _ _); intros [= <-]; unfold later, cursor_ok; simpl; rewrite Hw;
    (split; [split; [reflexivity|lia]|]); intros _ wps' [= <-]; lia.
Qed.

Lemma Enemy_new_cursor_ok (path : option Path) (config : EnemyConfig) (e : Enemy) :
  Enemy_new path config = Ok e -> cursor_ok e.
Proof.
  unfold Enemy_new. destruct (finalConfig config) as [[[hh s] v] size].
  destruct path as [p|]; simpl; [|discriminate].
  destruct (getWaypoints p) as [[|w0 wps]|]; intros [= <-] wps'; simpl; lia.
Qed.

Lemma Projectile_update_heap_step (h h' : Heap) (p p' : Projectile) (dt : number)
    (s : ProjectileStatus) :
  Projectile_update h p dt = Ok (s, p', h') -> heap_step h h'.
Proof.
  unfold Projectile_update, load.
  destruct (targetEnemy p) as [r|]; [|intros [= _ _ <-]; apply heap_step_refl].
  destruct (h !! r) as [e|] eqn:He; simpl; [|discriminate].
  destruct (isDead e); [intros [= _ _ <-]; apply heap_step_refl|].
  destruct (mesh e) as [em|]; simpl; [|discriminate].
  destruct (proj_mesh p) as [pm|]; simpl; [|discriminate].
  destruct (_ || _); intros [= _ _ <-]; [|apply heap_step_refl].
  apply (heap_step_insert h r e _ He); [split; [reflexivity|simpl; lia]|].
  intros Hok wps. simpl. apply Hok.
Qed.

Lemma update_projectiles_heap_step (n : nat) :
  forall (h h' : Heap) (ps ps' : list Projectile) (dt : number),
    update_projectiles n h ps dt = Ok (ps', h') -> heap_step h h'.
Proof.
  induction n as [|i IH]; intros h h' ps ps' dt; simpl.
  - intros [= _ <-]. apply heap_step_refl.
  - destruct (ps !! i) as [p|]; simpl; [|discriminate].
    destruct (Projectile_update h p dt) as [[[s p1] h1]|] eqn:Hp; simpl; [|discriminate].
    apply Projectile_update_heap_step in Hp.
    destruct s; intros Hrest; apply IH in Hrest;
      exact (heap_step_trans _ _ _ Hp Hrest).
Qed.

Lemma WaveManager_update_heap_step (w w' : WaveManager) (es es' : list ref)
    (h h' : Heap) (dt : number) (sig : option WaveSignal) :
  WaveManager_update w es h dt = Ok (sig, w', es', h') -> heap_step h h'.
Proof.
  assert (Hcc : forall w0 es0 h0,
            check_completion w0 es0 h0 = (sig, w', es', h') -> h' = h0).
  { intros w0 es0 h0. unfold check_completion.
    destruct (enemiesToSpawn w0); [destruct es0|]; congruence. }
  unfold WaveManager_update.
  destruct (activeWave w); simpl; [|intros [= _ _ _ <-]; apply heap_step_refl].
  destruct (enemiesToSpawn w) as [|g rest].
  - intros Hc. apply Ok_inj, Hcc in Hc as ->. apply heap_step_refl.
  - destruct (js_le _ _).
    + destruct (ENEMY_CONFIGS (type g)); [|intros [= _ _ _ <-]; apply heap_step_refl].
      destruct (Enemy_new _ _) as [enemy|] eqn:Hnew; simpl; [|discriminate].
      intros Hc. apply Ok_inj, Hcc in Hc as ->.
      apply heap_step_alloc. exact (Enemy_new_cursor_ok _ _ _ Hnew).
    + intros Hc. apply Ok_inj, Hcc in Hc as ->. apply heap_step_refl.
Qed.

Lemma animate_enemy_heap_step (g g' : Game) (i : nat) (dt : number) (f : Flow) :
  animate_enemy g i dt = Ok (f, g') -> heap_step (heap g) (heap g').
Proof.
  unfold animate_enemy, load.
  destruct (enemies g !! i) as [r|]; simpl; [|discriminate].
  destruct (heap g !! r) as [e|] eqn:He; simpl; [|discriminate].
  destruct (Enemy_update e dt) as [e1|] eqn:Hupd; simpl; [|discriminate].
  apply Enemy_update_later in Hupd as [Hlat Hok].
  assert (Hdisp : heap_step (heap g) (<[r := Enemy_dispose e1]> (heap g))).
  { apply (heap_step_insert _ r e _ He); [exact Hlat|].
    intros H0 wps. simpl. apply (Hok H0). }
  assert (Hkeep : heap_step (heap g) (<[r := e1]> (heap g)))
    by (apply (heap_step_insert _ r e _ He); assumption).
  destruct (isDead e1); [intros [= _ <-]; exact Hdisp|].
  destruct (hasReachedEnd e1) as [[]|]; simpl; [| |discriminate].
  - destruct (_ <=? _)%Z; intros [= _ <-]; assumption.
  - intros [= _ <-]. exact Hkeep.
Qed.

Lemma animate_enemies_heap_step (n : nat) :
  forall (g g' : Game) (dt : number),
    animate_enemies n g dt = Ok g' -> heap_step (heap g) (heap g').
Proof.
  induction n as [|i IH]; intros g g' dt; simpl.
  - intros [= <-]. apply heap_step_refl.
  - destruct (animate_enemy g i dt) as [[f g1]|] eqn:Hone; simpl; [|discriminate].
    apply animate_enemy_heap_step in Hone.
    destruct f; [|intros [= <-]; exact Hone].
    intros Hrest. apply IH in Hrest. exact (heap_step_trans _ _ _ Hone Hrest).
Qed.

Lemma animate_heap_step (g g' : Game) (dt : number) :
  animate g dt = Ok g' -> heap_step (heap g) (heap g').
Proof.
  unfold animate. destruct (game_ended _); [intros [= <-]; apply heap_step_refl|].
  destruct (WaveManager_update _ _ _ _) as [[[[sig w] es] h1]|] eqn:Hw; simpl;
    [|discriminate].
  apply WaveManager_update_heap_step in Hw.
  destruct (update_towers _ _ _ _ _) as [[ts ps]|]; simpl; [|discriminate].
  destruct (update_projectiles _ _ _ _) as [[ps' h2]|] eqn:Hp; simpl; [|discriminate].
  apply update_projectiles_heap_step in Hp.
  intros He. apply animate_enemies_heap_step in He. simpl in He.
  exact (heap_step_trans _ _ _ Hw (heap_step_trans _ _ _ Hp He)).
Qed.

Lemma play_heap_step (cs : list Command) :
  forall g g' : Game, play g cs = Ok g' -> heap_step (heap g) (heap g').
Proof.
  induction cs as [|c cs IH]; intros g g'; simpl.
  - intros [= <-]. apply heap_step_refl.
  - destruct (perform g c) as [g1|] eqn:Hc; simpl; [|discriminate].
    intros Hrest. apply IH in Hrest.
    refine (heap_step_trans _ _ _ _ Hrest).
    destruct c as [dt| |pt]; simpl in Hc.
    + exact (animate_heap_step _ _ _ Hc).
    + unfold onStartWave in Hc.
      destruct (gameStatus g); try (injection Hc as <-; apply heap_step_refl);
        destruct (startNextWave _) as [[[] w]|]; simpl in Hc; try discriminate;
        injection Hc as <-; apply heap_step_refl.
    + injection Hc as <-. unfold onBuildClick.
      destruct (game_ended _); [apply heap_step_refl|].
      destruct (js_ge _ _); apply heap_step_refl.
Qed.

(** X25: in a match played from the start, whatever the player and the
    clock do, every enemy keeps its cursor within its route, and between any two
    moments of the match no cursor moves back. *)
Corollary match_cursors (cs cs' : list Command) (g g' : Game) :
  play Game_init cs = Ok g ->
  play g cs' = Ok g' ->
  (forall r e, heap g !! r = Some e -> cursor_ok e) /\
  (forall r e, heap g !! r = Some e ->
     exists e', heap g' !! r = Some e' /\ later e e').
Proof.
  intros H1 H2. apply play_heap_step in H1 as [_ Hok], H2 as [Hlat _].
  split; [|exact Hlat]. apply Hok. intros r e He. discriminate He.
Qed.

(** * Further properties *)

(** ** Enemy *)

(** X1: movement does not look at health.  [update] leaves the health as it
    is, and damaging an enemy before a move gives the same enemy as
    damaging it after the move; so an enemy whose health is spent keeps
    moving along the route. *)
Theorem Enemy_update_takeDamage_commute (e : Enemy) (amount dt : number) :
  Enemy_update (takeDamage e amount) dt =
    (fun e' => takeDamage e' amount) <$> Enemy_update e dt /\
  (forall e', Enemy_update e dt = Ok e' -> health e' = health e).
Proof.
  unfold Enemy_update, hasReachedEnd, takeDamage. simpl.
  destruct (mesh e) as [m|]; [|split; [reflexivity|intros e' [= <-]; reflexivity]].
  destruct (waypoints e) as [wps|]; simpl; [|split; [reflexivity|discriminate]].
  destruct (Nat.leb _ _); [split; [reflexivity|intros e' [= <-]; reflexivity]|].
  destruct (wps !! currentWaypointIndex e);
    [|split; [reflexivity|intros e' [= <-]; reflexivity]].
  destruct (js_ge _ _); (split; [reflexivity|intros e' [= <-]; reflexivity]).
Qed.

(** X2: a disposed enemy is inert.  Whatever operations follow [dispose],
    none throws, the enemy stays without a mesh and its cursor stays where
    it was; only its health can still change. *)
Theorem Enemy_disposed_inert (e : Enemy) (ops : list EnemyOp) :
  exists e',
    Enemy_run ops (Enemy_dispose e) = Ok e' /\
    mesh e' = None /\
    currentWaypointIndex e' = currentWaypointIndex e /\
    waypoints e' = waypoints e.
Proof.
  assert (H : forall e0, mesh e0 = None ->
            exists e', Enemy_run ops e0 = Ok e' /\ mesh e' = None /\
              currentWaypointIndex e' = currentWaypointIndex e0 /\
              waypoints e' = waypoints e0).
  { induction ops as [|op ops' IH]; intros e0 Hm; simpl; [eauto|].
    destruct op as [dt|amount|]; simpl.
    - rewrite (Enemy_update_no_mesh e0 dt Hm). simpl. apply IH. exact Hm.
    - destruct (IH (takeDamage e0 amount) Hm) as (e' & -> & ? & ? & ?). eauto.
    - destruct (IH (Enemy_dispose e0) eq_refl) as (e' & -> & ? & ? & ?). eauto. }
  destruct (H (Enemy_dispose e) eq_refl) as (e' & ? & ? & ? & ?). eauto.
Qed.

(** X3: one waypoint per tick at most.  Over any history of operations that
    completes, the cursor advances by no more than the number of [update]
    calls in it, however large the time steps. *)
Theorem Enemy_run_cursor_speed_limit (ops : list EnemyOp) (e e' : Enemy) :
  Enemy_run ops e = Ok e' ->
  currentWaypointIndex e' <= currentWaypointIndex e + updates_in ops.
Proof.
  revert e. induction ops as [|op ops IH]; intros e; simpl.
  - intros [= <-]. lia.
  - destruct (Enemy_apply op e) as [e1|] eqn:Hop; simpl; [|discriminate].
    intros Hrun. apply IH in Hrun.
    destruct op as [dt|amount|]; simpl in Hop.
    + assert (currentWaypointIndex e1 <= S (currentWaypointIndex e)).
      { revert Hop. unfold Enemy_update, hasReachedEnd.
        destruct (mesh e); [|intros [= <-]; lia].
        destruct (waypoints e) as [wps|]; simpl; [|discriminate].
        destruct (Nat.leb _ _); [intros [= <-]; lia|].
        destruct (wps !! _); [|intros [= <-]; lia].
        destruct (js_ge _ _); intros [= <-]; simpl; lia. }
      lia.
    + injection Hop as <-. exact Hrun.
    + injection Hop as <-. exact Hrun.
Qed.

Lemma Enemy_run_cursor_speed_limit_witness :
  exists e',
    Enemy_run [OpUpdate 1000; OpTakeDamage 5; OpUpdate 1000]%float enemy_en_route = Ok e' /\
    currentWaypointIndex e' <= 1 + 2.
Proof.
  eexists. split; [vm_compute; reflexivity|].
  apply (Enemy_run_cursor_speed_limit
           [OpUpdate 1000; OpTakeDamage 5; OpUpdate 1000]%float enemy_en_route).
  vm_compute. reflexivity.
Defined.

(** X4: the first update of a new enemy is spent on the spawn point.  On a
    path whose first waypoint is at distance 0 from itself (its coordinates
    are finite), for every time step with [speed * deltaTime >= 0] the
    first [update] leaves the enemy on the first waypoint and moves the
    cursor from 0 to 1. *)
Theorem Enemy_first_update (p : Path) (w0 : Vector3) (wps : list Vector3)
    (config : EnemyConfig) (dt : number) :
  getWaypoints p = Some (w0 :: wps) ->
  V3.length (V3.subVectors w0 w0) = 0%float ->
  js_ge (default 2%float (cfg_speed config) * dt)%float 0 = true ->
  exists e0,
    Enemy_new (Some p) config = Ok e0 /\
    currentWaypointIndex e0 = 0 /\
    Enemy_update e0 dt = Ok (set_currentWaypointIndex e0 1).
Proof.
  intros Hw Hzero Hstep. unfold Enemy_new, finalConfig. simpl. rewrite Hw.
  eexists. split; [reflexivity|]. split; [reflexivity|].
  unfold Enemy_update, hasReachedEnd. simpl. rewrite Hzero, Hstep. reflexivity.
Qed.

Lemma Enemy_first_update_witness :
  exists e0,
    Enemy_new (Some Path_new) (mkEnemyConfig (Some 50) (Some 3.0) (Some 8) (Some 0.4))%float
      = Ok e0 /\
    currentWaypointIndex e0 = 0 /\
    Enemy_update e0 0.016%float = Ok (set_currentWaypointIndex e0 1).
Proof.
  apply (Enemy_first_update Path_new (mkVector3 (-15) 0.1 0)%float
           [mkVector3 0 0.1 0; mkVector3 0 0.1 15; mkVector3 15 0.1 15]%float
           (mkEnemyConfig (Some 50) (Some 3.0) (Some 8) (Some 0.4))%float 0.016%float);
    vm_compute; reflexivity.
Defined.

(** ** Projectile *)

(** X5: what one [update] of a projectile can do.  It damages an enemy only
    when it answers [HIT_TARGET], and then only its own target, which is
    alive, by exactly its [damage], leaving every other enemy and itself as
    they were; when it answers [MOVING] no enemy changes and the projectile
    keeps its target, speed and damage; when it answers [INVALID_TARGET]
    nothing changes at all, and the target is missing or dead. *)
Theorem Projectile_update_outcome (h h' : Heap) (p p' : Projectile) (dt : number)
    (s : ProjectileStatus) :
  Projectile_update h p dt = Ok (s, p', h') ->
  match s with
  | HIT_TARGET =>
      p' = p /\
      exists r e, targetEnemy p = Some r /\ h !! r = Some e /\ isDead e = false /\
        h' = <[r := takeDamage e (proj_damage p)]> h
  | MOVING =>
      h' = h /\ targetEnemy p' = targetEnemy p /\
      proj_speed p' = proj_speed p /\ proj_damage p' = proj_damage p /\
      exists r e, targetEnemy p = Some r /\ h !! r = Some e /\ isDead e = false
  | INVALID_TARGET =>
      p' = p /\ h' = h /\
      (targetEnemy p = None \/
       exists r e, targetEnemy p = Some r /\ h !! r = Some e /\ isDead e = true)
  end.
Proof.
  unfold Projectile_update, load.
  destruct (targetEnemy p) as [r|] eqn:Ht; [|intros [= <- <- <-]; auto].
  destruct (h !! r) as [e|] eqn:He; simpl; [|discriminate].
  destruct (isDead e) eqn:Hd; [intros [= <- <- <-]; eauto 10|].
  destruct (mesh e) as [em|]; simpl; [|discriminate].
  destruct (proj_mesh p) as [pm|]; simpl; [|discriminate].
  destruct (_ || _); intros [= <- <- <-]; simpl; eauto 10.
Qed.

Lemma Projectile_update_outcome_witness :
  exists r e,
    targetEnemy projectile_close = Some r /\ [at_the_line 100] !! r = Some e /\
    isDead e = false /\
    [takeDamage (at_the_line 100) 30%float] =
      <[r := takeDamage e (proj_damage projectile_close)]> [at_the_line 100].
Proof.
  destruct (Projectile_update_outcome [at_the_line 100]
              [takeDamage (at_the_line 100) 30%float]
              projectile_close projectile_close 0.016%float HIT_TARGET) as (_ & H).
  - vm_compute. reflexivity.
  - exact H.
Defined.

Lemma update_projectiles_sweep_gen (pre : list Projectile) :
  forall (done : list Projectile) (h : Heap) (dt : number),
    update_projectiles (List.length pre) h (pre ++ done) dt =
    '(kept, h') ← sweep h (rev pre) dt; Ok (kept ++ done, h').
Proof.
  induction pre as [|p pre IH] using rev_ind; intros done h dt; [reflexivity|].
  rewrite length_app, Nat.add_comm, rev_app_distr. simpl.
  rewrite <- app_assoc. simpl.
  rewrite (list_lookup_middle pre done p (List.length pre) eq_refl). simpl.
  destruct (Projectile_update h p dt) as [[[s p1] h1]|]; simpl; [|reflexivity].
  assert (Hins : <[List.length pre := p1]> (pre ++ p :: done) = pre ++ p1 :: done).
  { rewrite insert_app_r_alt by lia. rewrite Nat.sub_diag. reflexivity. }
  assert (Hdel : delete (List.length pre) (pre ++ p :: done) = pre ++ done).
  { rewrite delete_middle. reflexivity. }
  destruct s; rewrite ?Hins, ?Hdel, IH;
    destruct (sweep h1 (rev pre) dt) as [[kept h2]|]; simpl; try reflexivity.
  rewrite <- app_assoc. reflexivity.
Qed.

(** X6: the backwards loop over the projectiles, which removes entries from
    the array while it walks it, is one pass from the last projectile to the
    first: every projectile is updated exactly once, none is skipped after a
    removal, and the array is left with the projectiles that answered
    [MOVING], in their order. *)
Theorem update_projectiles_sweep (h : Heap) (ps : list Projectile) (dt : number) :
  update_projectiles (List.length ps) h ps dt = sweep h (rev ps) dt.
Proof.
  rewrite <- (app_nil_r ps) at 2.
  rewrite (update_projectiles_sweep_gen ps [] h dt).
  destruct (sweep h (rev ps) dt) as [[kept h']|]; simpl; [|reflexivity].
  rewrite app_nil_r. reflexivity.
Qed.

(** ** Tower *)

Lemma first_in_reach_cons (h : Heap) (t : Tower) (tm : Mesh) (r : ref)
    (rest : list ref) (found : option ref) :
  passed_over h t tm r ->
  first_in_reach h t tm rest found ->
  first_in_reach h t tm (r :: rest) found.
Proof.
  intros Hp [es Hall | pre r' post Hall Hr'].
  - apply first_none. constructor; assumption.
  - apply (first_some h t tm (r :: pre) r' post); [constructor; assumption|assumption].
Qed.

Lemma findTarget_scan_sound (h : Heap) (t : Tower) (tm : Mesh) (es : list ref) :
  tower_mesh t = Some tm ->
  forall found,
    findTarget_scan h t (range t * range t)%float es = Ok found ->
    first_in_reach h t tm es found.
Proof.
  intros Htm. induction es as [|r rest IH]; intros found; simpl.
  - intros [= <-]. apply first_none. constructor.
  - unfold load. destruct (h !! r) as [e|] eqn:He; simpl; [|discriminate].
    destruct (isDead e) eqn:Hd.
    + intros Hrest. apply first_in_reach_cons; [|auto]. exists e. auto.
    + rewrite Htm. simpl. destruct (mesh e) as [em|] eqn:Hem; simpl; [|discriminate].
      destruct (js_le _ _) eqn:Hin.
      * intros [= <-]. apply (first_some h t tm [] r rest); [constructor|].
        exists e, em. auto.
      * intros Hrest. apply first_in_reach_cons; [|auto].
        exists e. split; [exact He|]. right. split; [exact Hd|]. eauto.
Qed.

(** A completed [findTarget] sets the target to the first enemy in reach. *)
Lemma findTarget_first (h : Heap) (t t' : Tower) (tm : Mesh) (es : list ref) :
  tower_mesh t = Some tm ->
  findTarget h t es = Ok t' ->
  exists found,
    t' = set_currentTarget t found /\
    first_in_reach h t tm es found /\
    (forall r, found = Some r -> r ∈ es).
Proof.
  intros Htm. unfold findTarget.
  destruct (findTarget_scan _ _ _ _) as [found|] eqn:Hscan; simpl; [|discriminate].
  apply (findTarget_scan_sound h t tm es Htm) in Hscan.
  assert (Hmem : forall r, found = Some r -> r ∈ es).
  { intros r ->. inversion Hscan; subst.
    apply elem_of_app. right. apply elem_of_cons. left. reflexivity. }
  destruct found as [r|]; [|intros [= <-]; eauto].
  assert (Hr : in_reach h t tm r) by (inversion Hscan; assumption).
  rewrite (target_invalid_in_reach h t tm Htm (Some r) r Hr). simpl.
  intros [= <-]. eauto.
Qed.

(** X7: whatever [findTarget] returns is right.  When the call completes,
    the tower is as before except for its target, and that target is the
    first enemy of the array that is alive and in range, or [null] if every
    enemy of the array is dead or out of range.  In particular the previous
    target plays no part, and a target is always a member of the array. *)
Theorem findTarget_sound (h : Heap) (t t' : Tower) (tm : Mesh) (es : list ref) :
  tower_mesh t = Some tm ->
  findTarget h t es = Ok t' ->
  exists found,
    t' = set_currentTarget t found /\
    first_in_reach h t tm es found /\
    (forall r, found = Some r -> r ∈ es).
Proof.
  intros Htm Hfind.
  destruct (findTarget_first h t t' tm es Htm Hfind) as (found & Ht' & Hfirst & Hmem).
  exists found. auto.
Qed.

Lemma findTarget_sound_witness :
  exists found,
    set_currentTarget tower_at_origin (Some 2) = set_currentTarget tower_at_origin found /\
    first_in_reach five_enemies tower_at_origin
      (mkMesh (mkVector3 0 0.75 0) (BoxGeometry 0.8 1.5 0.8))%float [0; 1; 2; 3; 4] found /\
    (forall r, found = Some r -> r ∈ [0; 1; 2; 3; 4]).
Proof.
  apply (findTarget_sound five_enemies tower_at_origin); vm_compute; reflexivity.
Defined.

Lemma target_invalid_false (h : Heap) (t : Tower) (c : option ref) :
  target_invalid h t c = Ok false ->
  exists r, c = Some r /\ valid_target h t r.
Proof.
  unfold target_invalid, load. destruct c as [r|]; [|discriminate].
  destruct (h !! r) as [e|] eqn:He; simpl; [|discriminate].
  destruct (isDead e) eqn:Hd; [discriminate|].
  destruct (tower_mesh t) as [tm|] eqn:Htm; simpl; [|discriminate].
  destruct (mesh e) as [em|] eqn:Hem; simpl; [|discriminate].
  intros [= Hgt]. exists r. split; [reflexivity|]. exists e, em, tm. auto.
Qed.

Lemma findTarget_valid (h : Heap) (t t' : Tower) (es : list ref) (r : ref) :
  findTarget h t es = Ok t' ->
  currentTarget t' = Some r ->
  t' = set_currentTarget t (Some r) /\ r ∈ es /\ valid_target h t r.
Proof.
  intros Hfind Hcur.
  destruct (tower_mesh t) as [tm|] eqn:Htm.
  - destruct (findTarget_first h t t' tm es Htm Hfind) as (found & -> & Hfirst & Hmem).
    simpl in Hcur. subst found. split; [reflexivity|]. split; [auto|].
    inversion Hfirst as [|pre r' post _ (e & em & He & Hd & Hem & Hin)]; subst.
    exists e, em, tm. repeat split; try assumption.
    apply js_le_not_gt. exact Hin.
  - exfalso. revert Hfind. unfold findTarget.
    destruct (findTarget_scan _ _ _ _) as [[r0|]|]; simpl;
      [|intros [= <-]; discriminate|discriminate].
    unfold target_invalid, load. simpl.
    destruct (h !! r0) as [e|]; simpl; [|discriminate].
    destruct (isDead e); [intros [= <-]; discriminate|].
    rewrite Htm. discriminate.
Qed.

Lemma attack_fired (h : Heap) (t t' : Tower) (ps ps' : list Projectile) (r : ref) :
  attack h t ps (Some r) = Ok (t', ps') ->
  (exists e, h !! r = Some e /\ isDead e = true) \/
  (exists tm, tower_mesh t = Some tm /\
     t' = set_fireCooldown t (1 / fireRate t)%float /\ ps' = ps ++ [shot t tm r]).
Proof.
  unfold attack, load. destruct (h !! r) as [e|]; simpl; [|discriminate].
  destruct (isDead e) eqn:Hd; [intros _; left; eauto|].
  destruct (tower_mesh t) as [tm|]; simpl; [|discriminate].
  intros [= <- <-]. right. exists tm. auto.
Qed.

(** The shape of every completed [Tower.update]: the cooldown step, then a
    target [c] that is the old one found valid or the result of a new
    search, then possibly one shot at it. *)
Lemma Tower_update_shape (h : Heap) (t t' : Tower) (ps ps' : list Projectile)
    (dt : number) (es : list ref) :
  Tower_update h t ps dt es = Ok (t', ps') ->
  exists c,
    (c = None \/
     exists r, c = Some r /\ (currentTarget t = Some r \/ r ∈ es) /\ valid_target h t r) /\
    ((t' = set_currentTarget (set_fireCooldown t (cooled t dt)) c /\ ps' = ps) \/
     (exists r tm, c = Some r /\ tower_mesh t = Some tm /\
        js_le (cooled t dt) 0 = true /\
        t' = set_currentTarget (set_fireCooldown t (1 / fireRate t)%float) c /\
        ps' = ps ++ [shot t tm r])).
Proof.
  unfold Tower_update.
  assert (Ht1 : (if js_gt (fireCooldown t) 0
                 then set_fireCooldown t (fireCooldown t - dt)%float else t) =
                set_fireCooldown t (cooled t dt)).
  { unfold cooled. destruct (js_gt _ _); [reflexivity|]. destruct t; reflexivity. }
  rewrite Ht1. set (t1 := set_fireCooldown t (cooled t dt)).
  destruct (target_invalid h t1 (currentTarget t1)) as [bad|] eqn:Hbad; simpl;
    [|discriminate].
  assert (Hsel : forall t2, (if bad then findTarget h t1 es else Ok t1) = Ok t2 ->
            exists c, t2 = set_currentTarget t1 c /\
              (c = None \/
               exists r, c = Some r /\ (currentTarget t = Some r \/ r ∈ es) /\
                 valid_target h t r)).
  { intros t2 H2. destruct bad.
    - destruct (findTarget_only_target _ _ _ _ H2) as [c ->]. exists c.
      split; [reflexivity|]. destruct c as [r|]; [right|left; reflexivity].
      destruct (findTarget_valid h t1 _ es r H2 eq_refl) as (_ & Hmem & Hv).
      exists r. auto.
    - injection H2 as <-. exists (currentTarget t). split; [destruct t; reflexivity|].
      apply target_invalid_false in Hbad as (r & Hr & Hv). right. exists r. auto. }
  destruct (if bad then _ else _) as [t2|]; simpl; [|discriminate].
  destruct (Hsel t2 eq_refl) as (c & -> & Hc). clear Hsel. simpl.
  intros Hfin. exists c. split; [exact Hc|]. revert Hfin.
  destruct c as [r|]; [|intros [= <- <-]; auto].
  destruct (js_le (cooled t dt) 0) eqn:Hready; [|intros [= <- <-]; auto].
  intros Hatt. apply attack_fired in Hatt as [(e0 & He0 & Hd0) | (tm & Htm & -> & ->)].
  - exfalso. destruct Hc as [Hn|(r0 & Hr0 & _ & Hv)]; [discriminate|].
    injection Hr0 as <-. destruct Hv as (e & em & tm & He & Hd & _). congruence.
  - right. exists r, tm. repeat split; auto.
Qed.

(** Everything a completed [Tower.update] guarantees, in one place. *)
Lemma Tower_update_summary (h : Heap) (t t' : Tower) (ps ps' : list Projectile)
    (dt : number) (es : list ref) :
  Tower_update h t ps dt es = Ok (t', ps') ->
  same_build t t' /\
  (forall r, currentTarget t' = Some r ->
     (currentTarget t = Some r \/ r ∈ es) /\ valid_target h t' r) /\
  (ps' = ps \/
   exists r tm,
     currentTarget t' = Some r /\ tower_mesh t = Some tm /\
     js_le (cooled t dt) 0 = true /\ ps' = ps ++ [shot t tm r]).
Proof.
  intros Hupd.
  destruct (Tower_update_shape _ _ _ _ _ _ _ Hupd) as (c & Hsel & Hfire).
  assert (Hc : exists cd, t' = set_currentTarget (set_fireCooldown t cd) c).
  { destruct Hfire as [[-> _] | (r0 & tm & _ & _ & _ & -> & _)]; eauto. }
  destruct Hc as [cd Ht']. split; [|split].
  - exists c, cd. rewrite Ht'. destruct t; reflexivity.
  - intros r Hcur. rewrite Ht' in Hcur. simpl in Hcur. subst c.
    destruct Hsel as [Hn|(r0 & Hr0 & Hfrom & Hv)]; [discriminate|].
    injection Hr0 as <-. destruct Hv as (e & em & tm & He & Hd & Hem & Htm & Hgt).
    split; [exact Hfrom|]. exists e, em, tm. rewrite Ht'. auto.
  - destruct Hfire as [[_ ->] | (r & tm & -> & Htm & Hready & _ & ->)]; [auto|].
    right. exists r, tm. rewrite Ht'. auto.
Qed.

(** X8: target validity.  After a completed update a tower's target, if it
    has one, is an enemy that is alive, has a mesh and is not farther than
    the range, as measured during that update; and it is the previous
    target or a member of the array given to the update. *)
Theorem Tower_update_target_valid (h : Heap) (t t' : Tower) (ps ps' : list Projectile)
    (dt : number) (es : list ref) (r : ref) :
  Tower_update h t ps dt es = Ok (t', ps') ->
  currentTarget t' = Some r ->
  (currentTarget t = Some r \/ r ∈ es) /\ valid_target h t' r.
Proof.
  intros Hupd Hcur.
  destruct (Tower_update_summary _ _ _ _ _ _ _ Hupd) as (_ & Hvalid & _).
  exact (Hvalid r Hcur).
Qed.

Lemma Tower_update_target_valid_witness :
  (currentTarget tower_at_origin = Some 2 \/ 2 ∈ [0; 1; 2; 3; 4]) /\
  valid_target five_enemies
    (set_currentTarget (set_fireCooldown tower_at_origin (1 / 1.2)%float) (Some 2)) 2.
Proof.
  apply (Tower_update_target_valid five_enemies tower_at_origin _ [] _ 0.016%float
           [0; 1; 2; 3; 4] 2 ltac:(vm_compute; reflexivity) eq_refl).
Defined.

(** X9: what a tower may change and what it fires.  A completed update
    changes nothing of the tower but its target and its cooldown, and it
    leaves the projectiles as they are or appends exactly one: aimed at the
    tower's (valid) target, carrying the tower's damage, with speed 20,
    placed a tenth of a unit above the tower; this needs the cooldown to
    have run out. *)
Theorem Tower_update_fires (h : Heap) (t t' : Tower) (ps ps' : list Projectile)
    (dt : number) (es : list ref) :
  Tower_update h t ps dt es = Ok (t', ps') ->
  same_build t t' /\
  (ps' = ps \/
   exists r tm,
     currentTarget t' = Some r /\ valid_target h t' r /\
     tower_mesh t = Some tm /\ js_le (cooled t dt) 0 = true /\
     ps' = ps ++ [shot t tm r]).
Proof.
  intros Hupd.
  destruct (Tower_update_summary _ _ _ _ _ _ _ Hupd) as (Hsame & Hvalid & Hshot).
  split; [exact Hsame|].
  destruct Hshot as [-> | (r & tm & Hcur & Htm & Hready & ->)]; [auto|].
  right. exists r, tm. repeat split; auto. exact (proj2 (Hvalid r Hcur)).
Qed.

Lemma Tower_update_fires_witness :
  exists t' p,
    Tower_update five_enemies tower_at_origin [] 0.016%float [0; 1; 2; 3; 4] =
      Ok (t', [p]) /\
    same_build tower_at_origin t' /\
    targetEnemy p = Some 2 /\ proj_damage p = 30%float.
Proof.
  do 2 eexists. split; [vm_compute; reflexivity|].
  split; [|split; reflexivity].
  refine (proj1 (Tower_update_fires five_enemies tower_at_origin _ [] _ 0.016%float
                   [0; 1; 2; 3; 4] _)).
  vm_compute. reflexivity.
Defined.

(** X10: a tower does not survive a target that was disposed while alive.
    If the current target has not died but has lost its mesh (it reached
    the end of the route and was reaped), the update throws while it
    measures the distance to it, instead of dropping the target. *)
Theorem Tower_update_throws_on_disposed_target (h : Heap) (t : Tower)
    (ps : list Projectile) (dt : number) (es : list ref) (r : ref) (e : Enemy) :
  currentTarget t = Some r ->
  h !! r = Some e ->
  isDead e = false ->
  mesh e = None ->
  Tower_update h t ps dt es = Throw (TypeError "reading 'position'").
Proof.
  intros Hc He Hd Hm. unfold Tower_update.
  assert (Hinv : forall t1, currentTarget t1 = Some r ->
            target_invalid h t1 (currentTarget t1) = Throw (TypeError "reading 'position'")).
  { intros t1 ->. unfold target_invalid, load. rewrite He. simpl. rewrite Hd.
    destruct (tower_mesh t1); simpl; [rewrite Hm|]; reflexivity. }
  rewrite Hinv; [reflexivity|]. destruct (js_gt _ _); exact Hc.
Qed.

Lemma Tower_update_throws_on_disposed_target_witness :
  Tower_update [arrived_alive] tower_aiming [] 0.016%float [] =
    Throw (TypeError "reading 'position'").
Proof.
  apply (Tower_update_throws_on_disposed_target [arrived_alive] tower_aiming []
           0.016%float [] 0 arrived_alive); reflexivity.
Defined.

(** X11: the loop over the towers.  It updates every tower once and keeps
    their number and order; each tower changes at most in target and
    cooldown; the projectiles already in the array stay where they are, and
    at most one new projectile per tower is appended. *)
Theorem update_towers_outcome (h : Heap) (ts : list Tower) :
  forall (ps : list Projectile) (dt : number) (es : list ref)
         (ts' : list Tower) (ps' : list Projectile),
    update_towers h ts ps dt es = Ok (ts', ps') ->
    Forall2 same_build ts ts' /\
    exists new, ps' = ps ++ new /\ List.length new <= List.length ts.
Proof.
  induction ts as [|t rest IH]; intros ps dt es ts' ps'; simpl.
  - intros [= <- <-]. split; [constructor|]. exists []. rewrite app_nil_r. auto.
  - destruct (Tower_update h t ps dt es) as [[t1 ps1]|] eqn:Hone; simpl; [|discriminate].
    destruct (update_towers h rest ps1 dt es) as [[rest' ps2]|] eqn:Hrest; simpl;
      [|discriminate].
    intros [= <- <-]. apply IH in Hrest as (Hall & new & -> & Hlen).
    apply Tower_update_summary in Hone as (Hsame & _ & Hps).
    split; [constructor; assumption|].
    destruct Hps as [-> | (r & tm & _ & _ & _ & ->)].
    + exists new. split; [reflexivity|lia].
    + exists (shot t tm r :: new). rewrite <- app_assoc. split; [reflexivity|simpl; lia].
Qed.

Lemma update_towers_outcome_witness :
  exists ts' ps',
    update_towers five_enemies [tower_at_origin; tower_reloading] [] 0.016%float
      [0; 1; 2; 3; 4] = Ok (ts', ps') /\
    Forall2 same_build [tower_at_origin; tower_reloading] ts' /\
    exists new, ps' = [] ++ new /\ List.length new <= 2.
Proof.
  do 2 eexists. split; [vm_compute; reflexivity|].
  apply (update_towers_outcome five_enemies [tower_at_origin; tower_reloading] []
           0.016%float [0; 1; 2; 3; 4]).
  vm_compute. reflexivity.
Defined.

(** ** WaveManager *)

Lemma check_completion_keeps (w w' : WaveManager) (es es' : list ref) (h h' : Heap)
    (sig : option WaveSignal) :
  check_completion w es h = (sig, w', es', h') ->
  es' = es /\ h' = h /\ enemiesToSpawn w' = enemiesToSpawn w /\
  waveConfigs w' = waveConfigs w /\ currentWaveIndex w' = currentWaveIndex w /\
  wm_path w' = wm_path w.
Proof.
  unfold check_completion.
  destruct (enemiesToSpawn w) eqn:Hq; [destruct es|]; intros [= <- <- <- <-];
    simpl; rewrite ?Hq; auto 10.
Qed.

(** What one [update] of the scheduler does to the array, the heap and the
    queue. *)
Lemma WaveManager_update_effect (w w' : WaveManager) (es es' : list ref)
    (h h' : Heap) (dt : number) (sig : option WaveSignal) :
  WaveManager_update w es h dt = Ok (sig, w', es', h') ->
  wm_path w' = wm_path w /\
  waveConfigs w' = waveConfigs w /\
  currentWaveIndex w' = currentWaveIndex w /\
  ((es' = es /\ h' = h /\
    (pending (enemiesToSpawn w') <= pending (enemiesToSpawn w))%Z) \/
   (exists g rest cfg enemy,
      enemiesToSpawn w = g :: rest /\
      js_le (spawnTimer w - dt)%float 0 = true /\
      ENEMY_CONFIGS (type g) = Some cfg /\
      Enemy_new (wm_path w) cfg = Ok enemy /\
      es' = es ++ [List.length h] /\ h' = h ++ [enemy] /\
      pending (enemiesToSpawn w') = (pending (enemiesToSpawn w) - 1)%Z)).
Proof.
  unfold WaveManager_update.
  destruct (activeWave w); simpl; [|intros [= _ <- <- <-]; split; [|split; [|split]]; auto; left; auto with zarith].
  destruct (enemiesToSpawn w) as [|g rest] eqn:Hq.
  - intros Hc. apply Ok_inj, check_completion_keeps in Hc as (-> & -> & Hq' & Hc' & Hi' & Hp').
    simpl in *. rewrite Hq'. split; [|split; [|split]]; auto. left. auto with zarith.
  - destruct (js_le _ _) eqn:Ht.
    + destruct (ENEMY_CONFIGS (type g)) as [cfg|] eqn:Hcfg.
      * destruct (Enemy_new _ _) as [enemy|] eqn:Hnew; simpl; [|discriminate].
        intros Hc. apply Ok_inj, check_completion_keeps in Hc
          as (-> & -> & Hq' & Hc' & Hi' & Hp').
        split; [|split; [|split]].
        { rewrite Hp'. destruct (_ <=? _)%Z; [destruct rest|]; reflexivity. }
        { rewrite Hc'. destruct (_ <=? _)%Z; [destruct rest|]; reflexivity. }
        { rewrite Hi'. destruct (_ <=? _)%Z; [destruct rest|]; reflexivity. }
        right. exists g, rest, cfg, enemy. repeat split; auto.
        rewrite Hq'. simpl.
        destruct (Z.leb_spec (count g - 1) 0); [destruct rest|]; simpl; lia.
      * intros [= _ <- <- <-]. simpl. split; [|split; [|split]]; auto. left.
        repeat split; auto. lia.
    + intros Hc. apply Ok_inj, check_completion_keeps in Hc
        as (-> & -> & Hq' & Hc' & Hi' & Hp').
      simpl in *. rewrite Hq'. split; [|split; [|split]]; auto. left. auto with zarith.
Qed.

(** X12: spawn accounting.  One [update] of the scheduler never removes an
    enemy and never touches the wave table or the wave index.  Either it
    adds nothing, and the queue stands for no more enemies than before; or
    it adds exactly one enemy, new on the heap and appended to the array,
    built from the stat table of the group at the front of the queue, and
    the queue stands for exactly one enemy less.  A group whose count is
    below 1 therefore still releases one enemy. *)
Theorem WaveManager_update_spawn_accounting (w w' : WaveManager) (es es' : list ref)
    (h h' : Heap) (dt : number) (sig : option WaveSignal) :
  WaveManager_update w es h dt = Ok (sig, w', es', h') ->
  waveConfigs w' = waveConfigs w /\
  currentWaveIndex w' = currentWaveIndex w /\
  ((es' = es /\ h' = h /\
    (pending (enemiesToSpawn w') <= pending (enemiesToSpawn w))%Z) \/
   (exists g rest cfg enemy,
      enemiesToSpawn w = g :: rest /\
      js_le (spawnTimer w - dt)%float 0 = true /\
      ENEMY_CONFIGS (type g) = Some cfg /\
      Enemy_new (wm_path w) cfg = Ok enemy /\
      es' = es ++ [List.length h] /\ h' = h ++ [enemy] /\
      pending (enemiesToSpawn w') = (pending (enemiesToSpawn w) - 1)%Z)).
Proof.
  intros Hupd.
  destruct (WaveManager_update_effect _ _ _ _ _ _ _ _ Hupd) as (_ & Hc & Hi & Hcase).
  auto.
Qed.

Lemma WaveManager_update_spawn_accounting_witness :
  WaveManager_update wave1_started [] [] 0.1%float =
    Ok (None, wave1_after_spawn, [0], [standard_spawned]) /\
  pending (enemiesToSpawn wave1_after_spawn) =
    (pending (enemiesToSpawn wave1_started) - 1)%Z.
Proof.
  assert (H : WaveManager_update wave1_started [] [] 0.1%float =
              Ok (None, wave1_after_spawn, [0], [standard_spawned]))
    by (vm_compute; reflexivity).
  split; [exact H|].
  destruct (WaveManager_update_spawn_accounting _ _ _ _ _ _ _ _ H)
    as (_ & _ & [(Hes & _) | (g & rest & cfg & enemy & _ & _ & _ & _ & _ & _ & Hp)]).
  - discriminate Hes.
  - exact Hp.
Defined.

Lemma JSON_number_idempotent (x : number) : JSON_number (JSON_number x) = JSON_number x.
Proof.
  destruct (PrimFloat.is_nan x || PrimFloat.is_infinity x || PrimFloat.eqb x 0%float)
    eqn:Hx.
  - assert (H0 : JSON_number x = 0%float) by (unfold JSON_number; rewrite Hx; reflexivity).
    rewrite H0. reflexivity.
  - assert (Hid : JSON_number x = x) by (unfold JSON_number; rewrite Hx; reflexivity).
    rewrite Hid. exact Hid.
Qed.

(** X13: the deep copy of a spawn group.  Copying a copy changes nothing,
    and on every group of the built-in wave table the copy equals the
    original, so a started wave queues exactly the groups of its table
    entry. *)
Theorem JSON_copy_round_trip (g : SpawnInfo) (path : option Path) (c : WaveConfig) :
  JSON_copy (JSON_copy g) = JSON_copy g /\
  (c ∈ waveConfigs (WaveManager_new path) ->
   map JSON_copy (wave_enemies c) = wave_enemies c).
Proof.
  split.
  - unfold JSON_copy. simpl. rewrite JSON_number_idempotent. reflexivity.
  - simpl. rewrite !elem_of_cons, elem_of_nil.
    intros [-> | [-> | [-> | []]]]; vm_compute; reflexivity.
Qed.

Lemma startNextWave_inactive (w : WaveManager) :
  activeWave w = false ->
  (-1 <= currentWaveIndex w)%Z ->
  exists s w',
    startNextWave w = Ok (s, w') /\
    currentWaveIndex w' = (currentWaveIndex w + 1)%Z /\
    waveConfigs w' = waveConfigs w /\
    wm_path w' = wm_path w /\
    ((s = GAME_WON /\ activeWave w' = false /\
      enemiesToSpawn w' = enemiesToSpawn w /\
      (Z.of_nat (List.length (waveConfigs w)) <= currentWaveIndex w + 1)%Z) \/
     (s = WAVE_STARTED /\ activeWave w' = true /\ spawnTimer w' = 0%float /\
      exists c, waveConfigs w !! Z.to_nat (currentWaveIndex w + 1) = Some c /\
        enemiesToSpawn w' = map JSON_copy (wave_enemies c))).
Proof.
  intros Ha Hi. unfold startNextWave. rewrite Ha.
  destruct (Z.leb_spec (Z.of_nat (List.length (waveConfigs w))) (currentWaveIndex w + 1))
    as [Hge|Hlt].
  - do 2 eexists. split; [reflexivity|]. simpl. auto 10.
  - unfold waveConfigs_at. simpl.
    destruct (Z.ltb_spec (currentWaveIndex w + 1) 0); [lia|].
    destruct (lookup_lt_is_Some_2 (waveConfigs w) (Z.to_nat (currentWaveIndex w + 1)))
      as [c Hc]; [lia|].
    rewrite Hc. simpl. do 2 eexists. split; [reflexivity|]. simpl.
    repeat split; auto. right. eauto 10.
Qed.

Lemma startNextWave_exhausted (w : WaveManager) :
  activeWave w = false ->
  (Z.of_nat (List.length (waveConfigs w)) <= currentWaveIndex w + 1)%Z ->
  startNextWave w =
    Ok (GAME_WON,
        mkWaveManager (wm_path w) (waveConfigs w) (currentWaveIndex w + 1) (spawnTimer w)
          (enemiesToSpawn w) false (timeUntilNextWave w)).
Proof.
  intros Ha Hlen. unfold startNextWave. rewrite Ha.
  destruct (Z.leb_spec (Z.of_nat (List.length (waveConfigs w))) (currentWaveIndex w + 1));
    [reflexivity|lia].
Qed.

(** X14: once the waves are exhausted they stay exhausted.  After a call
    of [startNextWave] that answered [GAME_WON], any number of further
    calls answer [GAME_WON] too and never start a wave or touch the queue;
    but each of them still advances the wave index by one. *)
Theorem startNextWave_won_forever (w w1 : WaveManager) (n : nat) :
  startNextWave w = Ok (GAME_WON, w1) ->
  exists wn,
    start_many n w1 = Ok (repeat GAME_WON n, wn) /\
    activeWave wn = false /\
    enemiesToSpawn wn = enemiesToSpawn w /\
    currentWaveIndex wn = (currentWaveIndex w + 1 + Z.of_nat n)%Z.
Proof.
  intros Hwon.
  assert (H1 : activeWave w1 = false /\ enemiesToSpawn w1 = enemiesToSpawn w /\
               currentWaveIndex w1 = (currentWaveIndex w + 1)%Z /\
               (Z.of_nat (List.length (waveConfigs w1)) <= currentWaveIndex w1)%Z).
  { revert Hwon. unfold startNextWave. destruct (activeWave w) eqn:Ha; [discriminate|].
    destruct (Z.leb_spec (Z.of_nat (List.length (waveConfigs w))) (currentWaveIndex w + 1)).
    - intros [= <-]. simpl. auto.
    - destruct (waveConfigs_at _ _); simpl; discriminate. }
  destruct H1 as (Ha1 & Hq1 & Hi1 & Hlen1). rewrite <- Hq1.
  replace (currentWaveIndex w + 1)%Z with (currentWaveIndex w1) by lia.
  clear Hwon Hq1 Hi1. revert w1 Ha1 Hlen1.
  induction n as [|n IH]; intros w1 Ha1 Hlen1.
  - exists w1. simpl. repeat split; auto. lia.
  - destruct (IH (mkWaveManager (wm_path w1) (waveConfigs w1) (currentWaveIndex w1 + 1)
                    (spawnTimer w1) (enemiesToSpawn w1) false (timeUntilNextWave w1)))
      as (wn & Hrun & Han & Hqn & Hin); simpl; [reflexivity|lia|].
    exists wn. simpl in Hqn, Hin. split; [|repeat split; auto; lia].
    change (start_many (S n) w1) with
      ('(s, w2) ← startNextWave w1; '(ss, w3) ← start_many n w2; Ok (s :: ss, w3)).
    rewrite (startNextWave_exhausted w1 Ha1 ltac:(lia)). simpl. rewrite Hrun. reflexivity.
Qed.

Lemma startNextWave_won_forever_witness :
  exists w1 wn,
    startNextWave wave3_done = Ok (GAME_WON, w1) /\
    start_many 3 w1 = Ok ([GAME_WON; GAME_WON; GAME_WON], wn) /\
    currentWaveIndex wn = 6%Z.
Proof.
  eexists. 
  assert (H : startNextWave wave3_done =
              Ok (GAME_WON, mkWaveManager (Some Path_new)
                    (waveConfigs (WaveManager_new (Some Path_new)))
                    3 0.5%float [] false 0%float)) by (vm_compute; reflexivity).
  destruct (startNextWave_won_forever _ _ 3 H) as (wn & Hrun & _ & _ & Hi).
  exists wn. split; [exact H|]. split; [exact Hrun|exact Hi].
Defined.

Lemma check_completion_complete (w0 w' : WaveManager) (es0 es' : list ref)
    (h0 h' : Heap) :
  check_completion w0 es0 h0 = (Some WAVE_COMPLETE, w', es', h') ->
  es' = [] /\ w' = set_activeWave w0 false.
Proof.
  unfold check_completion.
  destruct (enemiesToSpawn w0); [destruct es0|]; intros [= <- <- <-]; auto.
Qed.

Lemma WaveManager_update_complete_inv (w w' : WaveManager) (es es' : list ref)
    (h h' : Heap) (dt : number) :
  WaveManager_update w es h dt = Ok (Some WAVE_COMPLETE, w', es', h') ->
  activeWave w' = false /\ es' = [] /\ currentWaveIndex w' = currentWaveIndex w.
Proof.
  unfold WaveManager_update.
  destruct (activeWave w); simpl; [|discriminate].
  destruct (enemiesToSpawn w) as [|g rest].
  - intros Hc. apply Ok_inj, check_completion_complete in Hc as (-> & ->). auto.
  - destruct (js_le _ _).
    + destruct (ENEMY_CONFIGS (type g)); [|discriminate].
      destruct (Enemy_new _ _); simpl; [|discriminate].
      intros Hc. apply Ok_inj, check_completion_complete in Hc as (-> & ->).
      simpl. destruct (_ <=? _)%Z; [destruct rest|]; auto.
    + intros Hc. apply Ok_inj, check_completion_complete in Hc as (-> & ->). auto.
Qed.

(** X15: a completed wave makes room for the next.  When [update] signals
    [WAVE_COMPLETE] (the wave index being at least -1, as it always is), the
    next [startNextWave] is not rejected: it starts the next wave of the
    table or answers [GAME_WON], and moves the wave index up by one. *)
Theorem startNextWave_after_complete (w w' : WaveManager) (es es' : list ref)
    (h h' : Heap) (dt : number) :
  WaveManager_update w es h dt = Ok (Some WAVE_COMPLETE, w', es', h') ->
  (-1 <= currentWaveIndex w)%Z ->
  exists s w'',
    startNextWave w' = Ok (s, w'') /\
    (s = WAVE_STARTED \/ s = GAME_WON) /\
    currentWaveIndex w'' = (currentWaveIndex w + 1)%Z /\
    es' = [].
Proof.
  intros Hupd Hi.
  destruct (WaveManager_update_complete_inv _ _ _ _ _ _ _ Hupd) as (Hoff & -> & Hidx).
  destruct (startNextWave_inactive w' Hoff ltac:(lia))
    as (s & w'' & Hs & Hi'' & _ & _ & Hcase).
  exists s, w''. split; [exact Hs|]. split; [tauto|]. split; [lia|reflexivity].
Qed.

Lemma startNextWave_after_complete_witness :
  exists s w'',
    startNextWave wave1_complete = Ok (s, w'') /\
    (s = WAVE_STARTED \/ s = GAME_WON) /\
    currentWaveIndex w'' = (currentWaveIndex wave1_done + 1)%Z /\
    @nil ref = [].
Proof.
  apply (startNextWave_after_complete wave1_done wave1_complete [] [] [] [] 0.25%float).
  - vm_compute. reflexivity.
  - vm_compute. discriminate.
Defined.

(** ** The match as a whole *)

Lemma live_lt (h : Heap) (r : ref) : live h r -> r < List.length h.
Proof. intros (e & m & He & _). exact (lookup_lt_Some _ _ _ He). Qed.

Lemma live_app (h : Heap) (e : Enemy) (r : ref) : live h r -> live (h ++ [e]) r.
Proof.
  intros (e0 & m & He & Hm & Hw). exists e0, m.
  split; [apply lookup_app_l_Some; exact He|auto].
Qed.

Lemma live_insert_ne (h : Heap) (e : Enemy) (r r' : ref) :
  r' <> r -> live h r' -> live (<[r := e]> h) r'.
Proof.
  intros Hne (e0 & m & He & Hm & Hw). exists e0, m.
  rewrite list_lookup_insert_ne by congruence. auto.
Qed.

Lemma live_insert_eq (h : Heap) (e : Enemy) (m : Mesh) (r : ref) :
  r < List.length h -> mesh e = Some m -> waypoints e = Some the_route ->
  live (<[r := e]> h) r.
Proof.
  intros Hlt Hm Hw. exists e, m. rewrite list_lookup_insert_eq by exact Hlt. auto.
Qed.

Lemma Enemy_new_live (config : EnemyConfig) (enemy : Enemy) (h : Heap) :
  Enemy_new (Some Path_new) config = Ok enemy -> live (h ++ [enemy]) (List.length h).
Proof.
  unfold Enemy_new. destruct (finalConfig config) as [[[hh s] v] size]. simpl.
  intros [= <-]. eexists _, _. split; [apply list_lookup_middle; reflexivity|].
  split; reflexivity.
Qed.

Lemma Enemy_update_keeps_mesh (e e1 : Enemy) (m : Mesh) (dt : number) :
  Enemy_update e dt = Ok e1 -> mesh e = Some m ->
  (exists m1, mesh e1 = Some m1) /\ waypoints e1 = waypoints e.
Proof.
  unfold Enemy_update, hasReachedEnd. intros Hupd Hm. rewrite Hm in Hupd. revert Hupd.
  destruct (waypoints e) as [wps|] eqn:Hw; simpl; [|discriminate].
  destruct (Nat.leb _ _); [intros [= <-]; eauto|].
  destruct (wps !! _); [|intros [= <-]; eauto].
  destruct (js_ge _ _); intros [= <-]; simpl; eauto.
Qed.

Lemma Projectile_update_live (h h' : Heap) (p p' : Projectile) (dt : number)
    (s : ProjectileStatus) (r : ref) :
  Projectile_update h p dt = Ok (s, p', h') -> live h r -> live h' r.
Proof.
  unfold Projectile_update, load.
  destruct (targetEnemy p) as [r0|]; [|intros [= _ _ <-]; auto].
  destruct (h !! r0) as [e|] eqn:He; simpl; [|discriminate].
  destruct (isDead e); [intros [= _ _ <-]; auto|].
  destruct (mesh e) as [em|] eqn:Hem; simpl; [|discriminate].
  destruct (proj_mesh p) as [pm|]; simpl; [|discriminate].
  destruct (_ || _); intros [= _ _ <-]; [|auto].
  intros Hlive. destruct (decide (r = r0)) as [->|Hne].
  - destruct Hlive as (e0 & m & He0 & Hm & Hw).
    assert (e0 = e) by congruence. subst e0.
    apply (live_insert_eq _ _ m); [exact (lookup_lt_Some _ _ _ He)|exact Hm|exact Hw].
  - apply live_insert_ne; assumption.
Qed.

Lemma update_projectiles_live (n : nat) :
  forall (h h' : Heap) (ps ps' : list Projectile) (dt : number) (r : ref),
    update_projectiles n h ps dt = Ok (ps', h') -> live h r -> live h' r.
Proof.
  induction n as [|i IH]; intros h h' ps ps' dt r; simpl.
  - intros [= _ <-]. auto.
  - destruct (ps !! i) as [p|]; simpl; [|discriminate].
    destruct (Projectile_update h p dt) as [[[s p1] h1]|] eqn:Hp; simpl; [|discriminate].
    intros Hrest Hlive. apply (Projectile_update_live _ _ _ _ _ _ r Hp) in Hlive.
    destruct s; exact (IH _ _ _ _ _ _ Hrest Hlive).
Qed.

Lemma NoDup_delete_notin (es : list ref) (i : nat) (r : ref) :
  NoDup es -> es !! i = Some r -> r ∉ delete i es.
Proof.
  intros Hnd Hi Hin. apply list_elem_of_lookup_1 in Hin as [j Hj].
  destruct (Nat.lt_ge_cases j i) as [Hlt|Hge].
  - rewrite list_lookup_delete_lt in Hj by exact Hlt.
    pose proof (NoDup_lookup _ _ _ _ Hnd Hi Hj). lia.
  - rewrite list_lookup_delete_ge in Hj by exact Hge.
    pose proof (NoDup_lookup _ _ _ _ Hnd Hi Hj). lia.
Qed.

(** What the scheduler's signal says about its flag. *)
Lemma WaveManager_update_signal (w w' : WaveManager) (es es' : list ref)
    (h h' : Heap) (dt : number) (sig : option WaveSignal) :
  WaveManager_update w es h dt = Ok (sig, w', es', h') ->
  if activeWave w then
    (sig = Some WAVE_COMPLETE /\ activeWave w' = false /\ es' = [] /\
     enemiesToSpawn w' = []) \/
    (sig = None /\ activeWave w' = true)
  else sig = None /\ w' = w /\ es' = es /\ h' = h.
Proof.
  unfold WaveManager_update. destruct (activeWave w) eqn:Ha; simpl;
    [|intros [= <- <- <- <-]; auto].
  assert (Hcc : forall w0 es0 h0, activeWave w0 = true ->
            check_completion w0 es0 h0 = (sig, w', es', h') ->
            (sig = Some WAVE_COMPLETE /\ activeWave w' = false /\ es' = [] /\
             enemiesToSpawn w' = []) \/
            (sig = None /\ activeWave w' = true)).
  { intros w0 es0 h0 Ha0. unfold check_completion.
    destruct (enemiesToSpawn w0) eqn:Hq; [destruct es0|]; intros [= <- <- <- <-];
      simpl; auto. }
  destruct (enemiesToSpawn w) as [|g rest].
  - intros Hc. apply Ok_inj in Hc. refine (Hcc _ _ _ _ Hc). exact Ha.
  - destruct (js_le _ _).
    + destruct (ENEMY_CONFIGS (type g)); [|intros [= <- <- <- <-]; simpl; auto].
      destruct (Enemy_new _ _); simpl; [|discriminate].
      intros Hc. apply Ok_inj in Hc. refine (Hcc _ _ _ _ Hc).
      destruct (_ <=? _)%Z; [destruct rest|]; exact Ha.
    + intros Hc. apply Ok_inj in Hc. refine (Hcc _ _ _ _ Hc). exact Ha.
Qed.

(** The four stages of a frame of a match that has not ended. *)
Lemma animate_stages (g g' : Game) (dt : number) :
  animate g dt = Ok g' ->
  game_ended (gameStatus g) = false ->
  exists sig w1 es1 h1 ts ps ps' h2,
    WaveManager_update (waveManager g) (enemies g) (heap g) dt = Ok (sig, w1, es1, h1) /\
    update_towers h1 (towers g) (projectiles g) dt es1 = Ok (ts, ps) /\
    update_projectiles (List.length ps) h1 ps dt = Ok (ps', h2) /\
    animate_enemies (List.length es1)
      (mkGame (playerGold g) (playerLives g) (currentWaveNumber g)
         (match sig with Some WAVE_COMPLETE => S_WAVE_COMPLETE | _ => gameStatus g end)
         w1 ts ps' es1 h2) dt = Ok g'.
Proof.
  unfold animate. intros Hrun Hend. rewrite Hend in Hrun. revert Hrun.
  destruct (WaveManager_update _ _ _ _) as [[[[sig w1] es1] h1]|] eqn:H1; simpl;
    [|discriminate].
  destruct (update_towers _ _ _ _ _) as [[ts ps]|] eqn:H2; simpl; [|discriminate].
  destruct (update_projectiles _ _ _ _) as [[ps' h2]|] eqn:H3; simpl; [|discriminate].
  intros Hloop. exists sig, w1, es1, h1, ts, ps, ps', h2. auto.
Qed.

Lemma animate_enemy_effect (g g' : Game) (i : nat) (dt : number) (f : Flow) :
  animate_enemy g i dt = Ok (f, g') ->
  NoDup (enemies g) ->
  (forall r, r ∈ enemies g -> live (heap g) r) ->
  waveManager g' = waveManager g /\
  currentWaveNumber g' = currentWaveNumber g /\
  towers g' = towers g /\ projectiles g' = projectiles g /\
  NoDup (enemies g') /\
  (forall r, r ∈ enemies g' -> live (heap g') r) /\
  match f with
  | Return => gameStatus g' = S_GAME_OVER /\ playerLives g' = 0%Z
  | Continue =>
      gameStatus g' = gameStatus g /\
      (playerLives g' <= playerLives g)%Z /\
      (1 <= playerLives g -> 1 <= playerLives g')%Z
  end.
Proof.
  intros Hrun Hnd Hlive. revert Hrun. unfold animate_enemy, load.
  destruct (enemies g !! i) as [r|] eqn:Hi; simpl; [|discriminate].
  destruct (Hlive r (list_elem_of_lookup_2 _ _ _ Hi)) as (e & m & He & Hm & Hw).
  rewrite He. simpl.
  destruct (Enemy_update e dt) as [e1|] eqn:Hupd; simpl; [|discriminate].
  destruct (Enemy_update_keeps_mesh _ _ _ _ Hupd Hm) as ([m1 Hm1] & Hw1).
  rewrite Hw in Hw1. apply lookup_lt_Some in He as Hlt.
  assert (Hremoved : NoDup (delete i (enemies g)) /\
            forall r', r' ∈ delete i (enemies g) ->
              live (<[r := Enemy_dispose e1]> (heap g)) r').
  { split; [eapply sublist_NoDup; [exact Hnd|apply sublist_delete]|].
    intros r' Hin. apply live_insert_ne.
    - intros ->. exact (NoDup_delete_notin _ _ _ Hnd Hi Hin).
    - apply Hlive. exact (list_elem_of_delete_inv _ _ _ Hin). }
  assert (Hkept : forall r', r' ∈ enemies g -> live (<[r := e1]> (heap g)) r').
  { intros r' Hin. destruct (decide (r' = r)) as [->|Hne].
    - exact (live_insert_eq _ _ m1 _ Hlt Hm1 Hw1).
    - apply live_insert_ne; auto. }
  destruct Hremoved as [Hnd' Hlive'].
  destruct (isDead e1).
  { intros [= <- <-]. simpl. repeat split; auto; lia. }
  destruct (hasReachedEnd e1) as [[]|]; simpl; [| |discriminate].
  - destruct (Z.leb_spec (playerLives g - 1) 0); intros [= <- <-]; simpl;
      repeat split; auto; lia.
  - intros [= <- <-]. simpl. repeat split; auto; lia.
Qed.

Lemma animate_enemies_effect (n : nat) :
  forall (g g' : Game) (dt : number),
    animate_enemies n g dt = Ok g' ->
    NoDup (enemies g) ->
    (forall r, r ∈ enemies g -> live (heap g) r) ->
    waveManager g' = waveManager g /\
    currentWaveNumber g' = currentWaveNumber g /\
    towers g' = towers g /\ projectiles g' = projectiles g /\
    NoDup (enemies g') /\
    (forall r, r ∈ enemies g' -> live (heap g') r) /\
    ((gameStatus g' = gameStatus g /\
      (playerLives g' <= playerLives g)%Z /\
      (1 <= playerLives g -> 1 <= playerLives g')%Z) \/
     (gameStatus g' = S_GAME_OVER /\ playerLives g' = 0%Z)).
Proof.
  induction n as [|i IH]; intros g g' dt; simpl.
  - intros [= <-] Hnd Hlive. repeat split; auto. left. repeat split; auto; lia.
  - destruct (animate_enemy g i dt) as [[f g1]|] eqn:Hone; simpl; [|discriminate].
    intros Hrest Hnd Hlive.
    destruct (animate_enemy_effect _ _ _ _ _ Hone Hnd Hlive)
      as (Hw & Hn & Ht & Hp & Hnd1 & Hlive1 & Hf).
    destruct f.
    + destruct (IH _ _ _ Hrest Hnd1 Hlive1)
        as (Hw' & Hn' & Ht' & Hp' & Hnd' & Hlive' & Hs').
      destruct Hf as (Hs & Hle & Hpos).
      repeat split; try congruence; auto.
      destruct Hs' as [(Hs1 & Hle1 & Hpos1) | Hover]; [left|right; exact Hover].
      repeat split; [congruence|lia|auto].
    + injection Hrest as <-. repeat split; auto.
Qed.

Lemma animate_match_ok (g g' : Game) (dt : number) :
  match_ok g -> animate g dt = Ok g' -> match_ok g'.
Proof.
  intros Hok Hrun.
  destruct (game_ended (gameStatus g)) eqn:Hend.
  { rewrite (animate_ended g dt Hend) in Hrun. injection Hrun as <-. exact Hok. }
  destruct (animate_stages _ _ _ Hrun Hend)
    as (sig & w1 & es1 & h1 & ts & ps & ps' & h2 & H1 & H2 & H3 & H4).
  destruct Hok as (Hpath & Hcfg & Hlives & Hnd & Hlive & Hstat).
  destruct (WaveManager_update_effect _ _ _ _ _ _ _ _ H1) as (Hp1 & Hc1 & Hi1 & Hcase).
  pose proof (WaveManager_update_signal _ _ _ _ _ _ _ _ H1) as Hsig.
  assert (HL1 : NoDup es1 /\ forall r, r ∈ es1 -> live h1 r).
  { destruct Hcase as [(-> & -> & _) |
      (gq & rest & cfg & enemy & _ & _ & _ & Hnew & -> & -> & _)]; [auto|].
    rewrite Hpath in Hnew. split.
    - apply NoDup_app. split; [exact Hnd|]. split; [|apply NoDup_singleton].
      intros x Hx Hin. apply list_elem_of_singleton in Hin. subst x.
      apply Hlive, live_lt in Hx. lia.
    - intros r Hin. apply elem_of_app in Hin as [Hin|Hin].
      + apply live_app, Hlive, Hin.
      + apply list_elem_of_singleton in Hin. subst r.
        exact (Enemy_new_live _ _ _ Hnew). }
  destruct HL1 as [Hnd1 Hlive1].
  assert (Hlive2 : forall r, r ∈ es1 -> live h2 r)
    by (intros r Hin; exact (update_projectiles_live _ _ _ _ _ _ r H3 (Hlive1 r Hin))).
  destruct (animate_enemies_effect _ _ _ _ H4 Hnd1 Hlive2)
    as (Hw' & Hn' & _ & _ & Hnd' & Hlive' & Hs').
  simpl in Hw', Hn', Hs'.
  assert (Hempty : es1 = [] -> enemies g' = [] /\
            gameStatus g' =
              match sig with Some WAVE_COMPLETE => S_WAVE_COMPLETE | _ => gameStatus g end /\
            playerLives g' = playerLives g).
  { intros ->. simpl in H4. injection H4 as <-. auto. }
  assert (Hl1 : (1 <= playerLives g)%Z)
    by (destruct (gameStatus g); try discriminate Hend; tauto).
  unfold match_ok. rewrite Hw', Hn', Hp1, Hc1, Hi1.
  split; [exact Hpath|]. split; [exact Hcfg|].
  split; [destruct Hs' as [(_ & ? & Hpos) | (_ & ->)]; [specialize (Hpos Hl1)|]; lia|].
  split; [exact Hnd'|]. split; [exact Hlive'|].
  destruct (gameStatus g) eqn:Hst; try discriminate Hend.
  - destruct Hstat as (Ha & Hes & Hnum & Hidx & Hl). rewrite Ha in Hsig.
    destruct Hsig as (-> & -> & -> & ->).
    destruct (Hempty Hes) as (Hes' & -> & ->). auto.
  - destruct Hstat as (Ha & Hnum & Hidx & Hl). rewrite Ha in Hsig.
    destruct Hsig as [(-> & Hoff & Hes1 & Hq) | (-> & Hon)].
    + destruct (Hempty Hes1) as (Hes' & -> & ->). auto 10.
    + destruct Hs' as [(-> & Hle & Hpos) | (-> & ->)]; auto 10.
  - destruct Hstat as (Ha & Hes & Hq & Hnum & Hidx & Hl). rewrite Ha in Hsig.
    destruct Hsig as (-> & -> & -> & ->).
    destruct (Hempty Hes) as (Hes' & -> & ->). auto 10.
Qed.

Lemma onStartWave_match_ok (g g' : Game) :
  match_ok g -> onStartWave g = Ok g' -> match_ok g'.
Proof.
  intros Hok. pose proof Hok as (Hpath & Hcfg & Hlives & Hnd & Hlive & Hstat).
  unfold onStartWave.
  assert (Hgo : activeWave (waveManager g) = false ->
            (-1 <= currentWaveIndex (waveManager g) <= 2)%Z ->
            currentWaveNumber g = (currentWaveIndex (waveManager g) + 1)%Z ->
            enemies g = [] -> (1 <= playerLives g)%Z ->
            forall g1,
              ('(waveResult, w) ← startNextWave (waveManager g);
               match waveResult with
               | WAVE_STARTED =>
                   Ok (mkGame (playerGold g) (playerLives g) (getCurrentWaveNumber w)
                         S_WAVE_ACTIVE w (towers g) (projectiles g) (enemies g) (heap g))
               | GAME_WON =>
                   Ok (mkGame (playerGold g) (playerLives g) (currentWaveNumber g)
                         S_GAME_WON w (towers g) (projectiles g) (enemies g) (heap g))
               | _ =>
                   Ok (mkGame (playerGold g) (playerLives g) (currentWaveNumber g)
                         (gameStatus g) w (towers g) (projectiles g) (enemies g) (heap g))
               end) = Ok g1 -> match_ok g1).
  { intros Ha Hidx Hnum Hes Hl g1.
    destruct (startNextWave_inactive _ Ha ltac:(lia))
      as (s & w' & -> & Hi' & Hc' & Hp' & Hcase). simpl.
    destruct Hcase as [(-> & Hoff & _ & Hlen) | (-> & Hon & _ & c & Hc & _)].
    - intros [= <-]. rewrite Hcfg in Hlen. simpl in Hlen.
      unfold match_ok. simpl. rewrite Hp', Hc'. repeat split; auto; lia.
    - intros [= <-]. apply lookup_lt_Some in Hc. rewrite Hcfg in Hc. simpl in Hc.
      unfold match_ok, getCurrentWaveNumber. simpl. rewrite Hp', Hc'.
      repeat split; auto; lia. }
  destruct (gameStatus g) eqn:Hst; try (intros [= <-]; exact Hok).
  - destruct Hstat as (Ha & Hes & Hnum & Hidx & Hl). apply Hgo; auto; lia.
  - destruct Hstat as (Ha & Hes & Hq & Hnum & Hidx & Hl). apply Hgo; auto; lia.
Qed.

Lemma perform_match_ok (g g' : Game) (c : Command) :
  match_ok g -> perform g c = Ok g' -> match_ok g'.
Proof.
  destruct c as [dt| |pt]; simpl.
  - apply animate_match_ok.
  - apply onStartWave_match_ok.
  - intros Hok [= <-]. unfold onBuildClick.
    destruct (game_ended _); [exact Hok|]. destruct (js_ge _ _); exact Hok.
Qed.

(** Whatever is played from the start, [match_ok] holds throughout. *)
Lemma play_match_ok (cs : list Command) :
  forall g g' : Game, match_ok g -> play g cs = Ok g' -> match_ok g'.
Proof.
  induction cs as [|c cs IH]; intros g g' Hok; simpl.
  - intros [= <-]. exact Hok.
  - destruct (perform g c) as [g1|] eqn:Hc; simpl; [|discriminate].
    apply IH. exact (perform_match_ok _ _ _ Hok Hc).
Qed.

Lemma Game_init_match_ok : match_ok Game_init.
Proof.
  unfold match_ok. simpl. repeat split; try lia.
  - constructor.
  - intros r Hr. apply elem_of_nil in Hr. destruct Hr.
Qed.

(** X16: lives.  In a match played from the start, whatever the commands
    and the time steps, the lives stay between 0 and 20, and they are 0
    exactly when the status is [GAME_OVER]. *)
Theorem match_lives (cs : list Command) (g : Game) :
  play Game_init cs = Ok g ->
  (0 <= playerLives g <= 20)%Z /\
  (playerLives g = 0%Z <-> gameStatus g = S_GAME_OVER).
Proof.
  intros Hplay.
  destruct (play_match_ok cs _ _ Game_init_match_ok Hplay)
    as (_ & _ & Hlives & _ & _ & Hstat).
  split; [exact Hlives|].
  destruct (gameStatus g); split; try discriminate; try tauto; intros; lia.
Qed.

Lemma match_lives_witness :
  exists g,
    play Game_init (wave 138) = Ok g /\
    (0 <= playerLives g <= 20)%Z /\
    (playerLives g = 0%Z <-> gameStatus g = S_GAME_OVER).
Proof.
  destruct (play Game_init (wave 138)) as [g|] eqn:Hplay;
    [|vm_compute in Hplay; discriminate Hplay].
  exists g. split; [reflexivity|]. exact (match_lives (wave 138) g Hplay).
Defined.

(** X17: status, scheduler and wave number agree.  In a match played from
    the start: while [IDLE] no wave was ever started; a wave is active in
    the scheduler exactly while the status is [WAVE_ACTIVE], or
    [GAME_OVER], which is only reached from there; outside a wave there are
    no enemies; the wave number shown is the scheduler's index plus one and
    lies between 1 and 3 once a wave was started; and [GAME_WON] is reached
    only with the third wave complete. *)
Theorem match_status_table (cs : list Command) (g : Game) :
  play Game_init cs = Ok g ->
  match gameStatus g with
  | S_IDLE =>
      activeWave (waveManager g) = false /\ enemies g = [] /\
      currentWaveNumber g = 0%Z /\ currentWaveIndex (waveManager g) = (-1)%Z
  | S_WAVE_ACTIVE =>
      activeWave (waveManager g) = true /\
      currentWaveNumber g = getCurrentWaveNumber (waveManager g) /\
      (1 <= currentWaveNumber g <= 3)%Z
  | S_WAVE_COMPLETE =>
      activeWave (waveManager g) = false /\ enemies g = [] /\
      enemiesToSpawn (waveManager g) = [] /\
      currentWaveNumber g = getCurrentWaveNumber (waveManager g) /\
      (1 <= currentWaveNumber g <= 3)%Z
  | S_GAME_OVER =>
      activeWave (waveManager g) = true /\
      currentWaveNumber g = getCurrentWaveNumber (waveManager g) /\
      (1 <= currentWaveNumber g <= 3)%Z
  | S_GAME_WON =>
      activeWave (waveManager g) = false /\ enemies g = [] /\
      currentWaveNumber g = 3%Z /\ getCurrentWaveNumber (waveManager g) = 4%Z
  end.
Proof.
  intros Hplay.
  destruct (play_match_ok cs _ _ Game_init_match_ok Hplay)
    as (_ & _ & _ & _ & _ & Hstat).
  unfold getCurrentWaveNumber.
  destruct (gameStatus g); repeat split; try tauto; lia.
Qed.

Lemma match_status_table_witness :
  exists g,
    play Game_init (wave 138) = Ok g /\
    gameStatus g = S_WAVE_COMPLETE /\
    activeWave (waveManager g) = false /\ enemies g = [].
Proof.
  destruct (play Game_init (wave 138)) as [g|] eqn:Hplay;
    [|vm_compute in Hplay; discriminate Hplay].
  exists g. split; [reflexivity|].
  assert (Hst : gameStatus g = S_WAVE_COMPLETE).
  { vm_compute in Hplay. injection Hplay as <-. reflexivity. }
  pose proof (match_status_table (wave 138) g Hplay) as Htab.
  rewrite Hst in Htab. split; [exact Hst|]. tauto.
Defined.

(** X18: the live enemies.  In a match played from the start the [enemies]
    array never names an enemy twice, and every enemy it names is on the
    heap, has its mesh and follows the route of the game; so no enemy of
    the array is a disposed one. *)
Theorem match_live_enemies (cs : list Command) (g : Game) :
  play Game_init cs = Ok g ->
  NoDup (enemies g) /\
  Forall (fun r => exists e m,
            heap g !! r = Some e /\ mesh e = Some m /\
            waypoints e = getWaypoints Path_new)
         (enemies g).
Proof.
  intros Hplay.
  destruct (play_match_ok cs _ _ Game_init_match_ok Hplay)
    as (_ & _ & _ & Hnd & Hlive & _).
  split; [exact Hnd|]. apply Forall_forall. exact Hlive.
Qed.

Lemma match_live_enemies_witness :
  exists g,
    play Game_init (wave 20) = Ok g /\
    NoDup (enemies g) /\
    Forall (fun r => exists e m,
              heap g !! r = Some e /\ mesh e = Some m /\
              waypoints e = getWaypoints Path_new)
           (enemies g).
Proof.
  destruct (play Game_init (wave 20)) as [g|] eqn:Hplay;
    [|vm_compute in Hplay; discriminate Hplay].
  exists g. split; [reflexivity|]. exact (match_live_enemies (wave 20) g Hplay).
Defined.

(** X19: the start-wave button.  In a match played from the start, a click
    while the status is [IDLE] or [WAVE_COMPLETE] never throws and is never
    turned down by the scheduler: it starts the next wave, the wave number
    going up by one, or, when three waves are complete, it ends the match
    as won. *)
Theorem match_start_accepted (cs : list Command) (g : Game) :
  play Game_init cs = Ok g ->
  gameStatus g = S_IDLE \/ gameStatus g = S_WAVE_COMPLETE ->
  exists g',
    onStartWave g = Ok g' /\
    ((gameStatus g' = S_WAVE_ACTIVE /\
      currentWaveNumber g' = (currentWaveNumber g + 1)%Z /\
      activeWave (waveManager g') = true /\
      (currentWaveNumber g < 3)%Z) \/
     (gameStatus g' = S_GAME_WON /\ currentWaveNumber g' = 3%Z /\
      currentWaveNumber g = 3%Z)).
Proof.
  intros Hplay Hst.
  destruct (play_match_ok cs _ _ Game_init_match_ok Hplay)
    as (_ & Hcfg & _ & _ & _ & Hstat).
  assert (H : activeWave (waveManager g) = false /\
              (-1 <= currentWaveIndex (waveManager g) <= 2)%Z /\
              currentWaveNumber g = (currentWaveIndex (waveManager g) + 1)%Z).
  { destruct Hst as [Hs|Hs]; rewrite Hs in Hstat; repeat split; try tauto; lia. }
  destruct H as (Ha & Hidx & Hnum).
  destruct (startNextWave_inactive _ Ha ltac:(lia))
    as (s & w' & Hs & Hi' & _ & _ & Hcase).
  assert (Hrun : onStartWave g =
            '(waveResult, w) ← Ok (s, w');
            match waveResult with
            | WAVE_STARTED =>
                Ok (mkGame (playerGold g) (playerLives g) (getCurrentWaveNumber w)
                      S_WAVE_ACTIVE w (towers g) (projectiles g) (enemies g) (heap g))
            | GAME_WON =>
                Ok (mkGame (playerGold g) (playerLives g) (currentWaveNumber g)
                      S_GAME_WON w (towers g) (projectiles g) (enemies g) (heap g))
            | _ =>
                Ok (mkGame (playerGold g) (playerLives g) (currentWaveNumber g)
                      (gameStatus g) w (towers g) (projectiles g) (enemies g) (heap g))
            end).
  { unfold onStartWave. destruct Hst as [-> | ->]; rewrite Hs; reflexivity. }
  rewrite Hrun. simpl.
  destruct Hcase as [(-> & Hoff & _ & Hlen) | (-> & Hon & _ & c & Hc & _)].
  - eexists. split; [reflexivity|]. right. simpl.
    rewrite Hcfg in Hlen. simpl in Hlen. repeat split; lia.
  - eexists. split; [reflexivity|]. left. simpl. unfold getCurrentWaveNumber.
    apply lookup_lt_Some in Hc. rewrite Hcfg in Hc. simpl in Hc.
    repeat split; auto; lia.
Qed.

Lemma match_start_accepted_witness :
  exists g g',
    play Game_init (wave 138) = Ok g /\
    onStartWave g = Ok g' /\
    ((gameStatus g' = S_WAVE_ACTIVE /\
      currentWaveNumber g' = (currentWaveNumber g + 1)%Z /\
      activeWave (waveManager g') = true /\
      (currentWaveNumber g < 3)%Z) \/
     (gameStatus g' = S_GAME_WON /\ currentWaveNumber g' = 3%Z /\
      currentWaveNumber g = 3%Z)).
Proof.
  destruct (play Game_init (wave 138)) as [g|] eqn:Hplay;
    [|vm_compute in Hplay; discriminate Hplay].
  assert (Hst : gameStatus g = S_WAVE_COMPLETE).
  { vm_compute in Hplay. injection Hplay as <-. reflexivity. }
  destruct (match_start_accepted (wave 138) g Hplay (or_intror Hst)) as (g' & Hg' & H).
  exists g, g'. split; [reflexivity|]. split; assumption.
Defined.

(** X20: the end is final for every command.  Once the status is
    [GAME_OVER] or [GAME_WON], frames, clicks on the start-wave button and
    build clicks all leave the match exactly as it is. *)
Theorem play_ended (g : Game) (cs : list Command) :
  game_ended (gameStatus g) = true -> play g cs = Ok g.
Proof.
  intros Hend. induction cs as [|c cs IH]; simpl; [reflexivity|].
  assert (Hc : perform g c = Ok g).
  { destruct c as [dt| |pt]; simpl.
    - exact (animate_ended g dt Hend).
    - unfold onStartWave. destruct (gameStatus g); try discriminate Hend; reflexivity.
    - unfold onBuildClick. rewrite Hend. reflexivity. }
  rewrite Hc. simpl. exact IH.
Qed.

Lemma play_ended_witness :
  exists g,
    play Game_init (wave 138 ++ wave 150 ++ wave 101) = Ok g /\
    play g [StartWave; Build (mkVector3 1 0 1)%float; Frame 0.25%float] = Ok g.
Proof.
  destruct (play Game_init (wave 138 ++ wave 150 ++ wave 101)) as [g|] eqn:Hplay;
    [|vm_compute in Hplay; discriminate Hplay].
  exists g. split; [reflexivity|]. apply play_ended.
  vm_compute in Hplay. injection Hplay as <-. reflexivity.
Defined.

(** ** The reap as one pass *)

Lemma reap_enemy_with_enemies (g : Game) (es : list ref) (r : ref) (dt : number) :
  reap_enemy (with_enemies g es) r dt =
  (fun '(f, rm, g1) => (f, rm, with_enemies g1 es)) <$> reap_enemy g r dt.
Proof.
  unfold reap_enemy. simpl.
  destruct (load (heap g) r) as [e|]; simpl; [|reflexivity].
  destruct (Enemy_update e dt) as [e1|]; simpl; [|reflexivity].
  destruct (isDead e1); [reflexivity|].
  destruct (hasReachedEnd e1) as [[]|]; simpl; [|reflexivity|reflexivity].
  destruct (_ <=? _)%Z; reflexivity.
Qed.

Lemma reap_pass_with_enemies (before : list ref) :
  forall (g : Game) (es kept : list ref) (dt : number),
    reap_pass (with_enemies g es) before kept dt = reap_pass g before kept dt.
Proof.
  induction before as [|r before IH]; intros g es kept dt; simpl; [reflexivity|].
  rewrite reap_enemy_with_enemies.
  destruct (reap_enemy g r dt) as [[[f rm] g1]|]; simpl; [|reflexivity].
  destruct f; [apply IH|reflexivity].
Qed.

(** The body of the loop at index [i] is the reap of the enemy found there,
    followed by its removal from the array if the reap asks for it. *)
Lemma animate_enemy_reap (g : Game) (i : nat) (r : ref) (dt : number) :
  enemies g !! i = Some r ->
  animate_enemy g i dt =
  (fun '(f, rm, g1) =>
     (f, if rm : bool then with_enemies g1 (delete i (enemies g)) else g1))
    <$> reap_enemy g r dt.
Proof.
  intros Hi. unfold animate_enemy, reap_enemy. rewrite Hi. simpl.
  destruct (load (heap g) r) as [e|]; simpl; [|reflexivity].
  destruct (Enemy_update e dt) as [e1|]; simpl; [|reflexivity].
  destruct (isDead e1); [reflexivity|].
  destruct (hasReachedEnd e1) as [[]|]; simpl; [|reflexivity|reflexivity].
  destruct (_ <=? _)%Z; reflexivity.
Qed.

Lemma reap_enemy_enemies (g g1 : Game) (r : ref) (dt : number) (f : Flow) (rm : bool) :
  reap_enemy g r dt = Ok (f, rm, g1) -> enemies g1 = enemies g.
Proof.
  unfold reap_enemy.
  destruct (load (heap g) r) as [e|]; simpl; [|discriminate].
  destruct (Enemy_update e dt) as [e1|]; simpl; [|discriminate].
  destruct (isDead e1); [intros [= _ _ <-]; reflexivity|].
  destruct (hasReachedEnd e1) as [[]|]; simpl; [| |discriminate].
  - destruct (_ <=? _)%Z; intros [= _ _ <-]; reflexivity.
  - intros [= _ _ <-]. reflexivity.
Qed.

Lemma with_enemies_same (g : Game) : with_enemies g (enemies g) = g.
Proof. destruct g; reflexivity. Qed.

Lemma animate_enemies_reap_gen (pre : list ref) :
  forall (kept : list ref) (g : Game) (dt : number),
    enemies g = pre ++ kept ->
    animate_enemies (List.length pre) g dt = reap_pass g (rev pre) kept dt.
Proof.
  induction pre as [|r pre IH] using rev_ind; intros kept g dt Hes.
  - simpl in *. rewrite <- Hes, with_enemies_same. reflexivity.
  - rewrite length_app, Nat.add_comm, rev_app_distr. simpl.
    rewrite <- app_assoc in Hes. simpl in Hes.
    assert (Hi : enemies g !! List.length pre = Some r)
      by (rewrite Hes; apply list_lookup_middle; reflexivity).
    rewrite (animate_enemy_reap g _ r dt Hi).
    destruct (reap_enemy g r dt) as [[[f rm] g1]|] eqn:Hreap; simpl; [|reflexivity].
    pose proof (reap_enemy_enemies _ _ _ _ _ _ Hreap) as Hes1.
    assert (Hdel : delete (List.length pre) (enemies g) = pre ++ kept)
      by (rewrite Hes; apply delete_middle).
    destruct f.
    + destruct rm.
      * rewrite Hdel. rewrite (IH kept (with_enemies g1 (pre ++ kept)) dt eq_refl).
        apply reap_pass_with_enemies.
      * apply IH. rewrite Hes1. exact Hes.
    + destruct rm.
      * rewrite Hdel, rev_involutive.
        exfalso. revert Hreap. unfold reap_enemy.
        destruct (load (heap g) r) as [e|]; simpl; [|discriminate].
        destruct (Enemy_update e dt) as [e1|]; simpl; [|discriminate].
        destruct (isDead e1); [discriminate|].
        destruct (hasReachedEnd e1) as [[]|]; simpl; [| |discriminate].
        -- destruct (_ <=? _)%Z; discriminate.
        -- discriminate.
      * rewrite rev_involutive, <- Hes, <- Hes1, with_enemies_same. reflexivity.
Qed.

(** X21: the backwards loop over the enemies is one pass from the last
    enemy to the first.  Every enemy is moved and judged exactly once, none
    is skipped after a removal, and the enemies that stay keep their order;
    if the match is lost on the way, the pass stops there and the enemies
    before that point are not even moved in that frame. *)
Theorem animate_enemies_reap (g : Game) (dt : number) :
  animate_enemies (List.length (enemies g)) g dt = reap_pass g (rev (enemies g)) [] dt.
Proof.
  apply animate_enemies_reap_gen. rewrite app_nil_r. reflexivity.
Qed.

(** ** Unknown enemy types *)

(** X22: the missing-key behaviour of the stat table.  When the timer of an
    active scheduler has run out and the type of the front group has no
    stat table, the update drops the whole group at once, whatever its
    count, spawns nothing, gives no signal and keeps the decremented timer.
    But a type named after a property inherited from [Object.prototype] is
    not taken for unknown: the update spawns an enemy with the default
    stats (health 100, speed 2, value 10, radius 0.5). *)
Theorem WaveManager_update_unknown_type (w : WaveManager) (g : SpawnInfo)
    (rest : list SpawnInfo) (es : list ref) (h : Heap) (dt : number) (p : Path)
    (w0 : Vector3) (wps : list Vector3) :
  activeWave w = true ->
  enemiesToSpawn w = g :: rest ->
  js_le (spawnTimer w - dt)%float 0 = true ->
  wm_path w = Some p ->
  getWaypoints p = Some (w0 :: wps) ->
  (ENEMY_CONFIGS (type g) = None ->
   WaveManager_update w es h dt =
     Ok (None, set_spawn w (spawnTimer w - dt)%float rest, es, h)) /\
  (type g ∈ Object_prototype_keys ->
   exists sig w',
     WaveManager_update w es h dt =
       Ok (sig, w', es ++ [List.length h],
           h ++ [mkEnemy 100 2 10 0 (Some (w0 :: wps))
                   (Some (mkMesh w0 (SphereGeometry 0.5)))]%float)).
Proof.
  intros Ha Hq Ht Hp Hw. unfold WaveManager_update. rewrite Ha, Hq. simpl. rewrite Ht.
  split.
  - intros ->. reflexivity.
  - intros Hin.
    assert (Hcfg : ENEMY_CONFIGS (type g) = Some empty_config).
    { unfold Object_prototype_keys in Hin.
      repeat (apply elem_of_cons in Hin as [-> | Hin]; [reflexivity|]).
      apply elem_of_nil in Hin. destruct Hin. }
    rewrite Hcfg, Hp. unfold Enemy_new. simpl. rewrite Hw. simpl.
    destruct (check_completion _ _ _) as [[[sig w'] es'] h'] eqn:Hc.
    apply check_completion_keeps in Hc as (-> & -> & _). eauto.
Qed.

Lemma WaveManager_update_unknown_type_witness :
  exists sig w',
    WaveManager_update inherited_wave [] [] 0.1%float =
      Ok (sig, w', [] ++ [0],
          [] ++ [mkEnemy 100 2 10 0 (Some the_route)
                   (Some (mkMesh (mkVector3 (-15) 0.1 0) (SphereGeometry 0.5)))]%float).
Proof.
  refine (proj2 (WaveManager_update_unknown_type inherited_wave
                   (mkSpawnInfo "toString" 7 1.0%float) [mkSpawnInfo "fast" 1 1.5%float]
                   [] [] 0.1%float Path_new (mkVector3 (-15) 0.1 0)%float
                   [mkVector3 0 0.1 0; mkVector3 0 0.1 15; mkVector3 15 0.1 15]%float
                   eq_refl eq_refl _ eq_refl eq_refl) _).
  - vm_compute. reflexivity.
  - simpl. do 8 apply list_elem_of_further. apply list_elem_of_here.
Defined.

(** ** Where a frame can fail *)

Lemma WaveManager_update_total (w : WaveManager) (p : Path) (es : list ref) (h : Heap)
    (dt : number) :
  wm_path w = Some p ->
  exists sig w1 es1 h1, WaveManager_update w es h dt = Ok (sig, w1, es1, h1).
Proof.
  intros Hp. unfold WaveManager_update.
  assert (Hcc : forall w0 es0 h0, exists sig w1 es1 h1,
            Ok (check_completion w0 es0 h0) = Ok (sig, w1, es1, h1)).
  { intros w0 es0 h0. destruct (check_completion w0 es0 h0) as [[[sig w1] es1] h1].
    eauto. }
  destruct (activeWave w); simpl; [|eauto].
  destruct (enemiesToSpawn w) as [|g rest]; [apply Hcc|].
  destruct (js_le _ _); [|apply Hcc].
  destruct (ENEMY_CONFIGS (type g)) as [cfg|]; [|eauto].
  rewrite Hp. unfold Enemy_new. destruct (finalConfig cfg) as [[[hh s] v] size]. simpl.
  destruct (getWaypoints p) as [[|w0 wps]|]; simpl; apply Hcc.
Qed.

Lemma Enemy_update_total (e : Enemy) (wps : list Vector3) (dt : number) :
  waypoints e = Some wps ->
  exists e1, Enemy_update e dt = Ok e1 /\ waypoints e1 = Some wps.
Proof.
  intros Hw. unfold Enemy_update. destruct (mesh e) as [m|]; [|eauto].
  rewrite (hasReachedEnd_Some e wps Hw), Hw. simpl.
  destruct (Nat.leb _ _); [eauto|].
  destruct (wps !! _); [|eauto].
  destruct (js_ge _ _); eauto.
Qed.

Lemma animate_enemy_total (g : Game) (i : nat) (dt : number) :
  i < List.length (enemies g) ->
  (forall r, r ∈ enemies g -> live (heap g) r) ->
  exists f g',
    animate_enemy g i dt = Ok (f, g') /\
    (enemies g' = enemies g \/ enemies g' = delete i (enemies g)).
Proof.
  intros Hi Hlive. destruct (lookup_lt_is_Some_2 _ _ Hi) as [r Hr].
  destruct (Hlive r (list_elem_of_lookup_2 _ _ _ Hr)) as (e & m & He & Hm & Hw).
  unfold animate_enemy, load. rewrite Hr. simpl. rewrite He. simpl.
  destruct (Enemy_update_total e the_route dt Hw) as (e1 & -> & Hw1). simpl.
  destruct (isDead e1); [eauto|].
  rewrite (hasReachedEnd_Some e1 the_route Hw1).
  destruct (Nat.leb (List.length the_route) (currentWaypointIndex e1)); simpl; [|eauto].
  destruct (_ <=? _)%Z; eauto.
Qed.

Lemma animate_enemies_total (n : nat) :
  forall (g : Game) (dt : number),
    n <= List.length (enemies g) ->
    NoDup (enemies g) ->
    (forall r, r ∈ enemies g -> live (heap g) r) ->
    exists g', animate_enemies n g dt = Ok g'.
Proof.
  induction n as [|i IH]; intros g dt Hn Hnd Hlive; simpl; [eauto|].
  destruct (animate_enemy_total g i dt ltac:(lia) Hlive) as (f & g1 & Hone & Hes).
  rewrite Hone. simpl. destruct f; [|eauto].
  destruct (animate_enemy_effect _ _ _ _ _ Hone Hnd Hlive)
    as (_ & _ & _ & _ & Hnd1 & Hlive1 & _).
  apply IH; auto.
  destruct Hes as [-> | ->]; [lia|].
  rewrite length_delete by (apply lookup_lt_is_Some_2; lia). lia.
Qed.

(** A frame of a well-formed match goes wrong only in the towers or in the
    projectiles. *)
Lemma animate_fails_in_combat (g : Game) (dt : number) :
  match_ok g ->
  (exists g', animate g dt = Ok g') \/
  (exists sig w1 es1 h1,
     WaveManager_update (waveManager g) (enemies g) (heap g) dt = Ok (sig, w1, es1, h1) /\
     ((exists x, update_towers h1 (towers g) (projectiles g) dt es1 = Throw x /\
                 animate g dt = Throw x) \/
      (exists ts ps x,
         update_towers h1 (towers g) (projectiles g) dt es1 = Ok (ts, ps) /\
         update_projectiles (List.length ps) h1 ps dt = Throw x /\
         animate g dt = Throw x))).
Proof.
  intros Hok. pose proof Hok as (Hpath & _ & _ & Hnd & Hlive & _).
  destruct (game_ended (gameStatus g)) eqn:Hend;
    [left; exists g; exact (animate_ended g dt Hend)|].
  destruct (WaveManager_update_total (waveManager g) _ (enemies g) (heap g) dt Hpath)
    as (sig & w1 & es1 & h1 & H1).
  unfold animate. rewrite Hend, H1. simpl.
  destruct (update_towers h1 (towers g) (projectiles g) dt es1) as [[ts ps]|x] eqn:H2;
    simpl; [|right; exists sig, w1, es1, h1; eauto 10].
  destruct (update_projectiles (List.length ps) h1 ps dt) as [[ps' h2]|x] eqn:H3;
    simpl; [|right; exists sig, w1, es1, h1; eauto 10].
  left.
  destruct (WaveManager_update_effect _ _ _ _ _ _ _ _ H1) as (_ & _ & _ & Hcase).
  assert (HL1 : NoDup es1 /\ forall r, r ∈ es1 -> live h1 r).
  { destruct Hcase as [(-> & -> & _) |
      (gq & rest & cfg & enemy & _ & _ & _ & Hnew & -> & -> & _)]; [auto|].
    rewrite Hpath in Hnew. split.
    - apply NoDup_app. split; [exact Hnd|]. split; [|apply NoDup_singleton].
      intros y Hy Hin. apply list_elem_of_singleton in Hin. subst y.
      apply Hlive, live_lt in Hy. lia.
    - intros r Hin. apply elem_of_app in Hin as [Hin|Hin].
      + apply live_app, Hlive, Hin.
      + apply list_elem_of_singleton in Hin. subst r.
        exact (Enemy_new_live _ _ _ Hnew). }
  destruct HL1 as [Hnd1 Hlive1].
  apply animate_enemies_total; simpl; auto.
  intros r Hin. exact (update_projectiles_live _ _ _ _ _ _ r H3 (Hlive1 r Hin)).
Qed.

(** X23: where a frame can fail.  In a match played from the start, the
    scheduler stage of a frame and the loop over the enemies never throw:
    either the frame completes, or the exception it ends with is thrown by
    the update of a tower or of a projectile. *)
Theorem match_frame_fails_in_combat (cs : list Command) (g : Game) (dt : number) :
  play Game_init cs = Ok g ->
  (exists g', animate g dt = Ok g') \/
  (exists sig w1 es1 h1,
     WaveManager_update (waveManager g) (enemies g) (heap g) dt = Ok (sig, w1, es1, h1) /\
     ((exists x, update_towers h1 (towers g) (projectiles g) dt es1 = Throw x /\
                 animate g dt = Throw x) \/
      (exists ts ps x,
         update_towers h1 (towers g) (projectiles g) dt es1 = Ok (ts, ps) /\
         update_projectiles (List.length ps) h1 ps dt = Throw x /\
         animate g dt = Throw x))).
Proof.
  intros Hplay. apply animate_fails_in_combat.
  exact (play_match_ok cs _ _ Game_init_match_ok Hplay).
Qed.

Lemma match_frame_fails_in_combat_witness :
  exists g g',
    play Game_init (wave 20) = Ok g /\ animate g 0.25%float = Ok g'.
Proof.
  destruct (play Game_init (wave 20)) as [g|] eqn:Hplay;
    [|vm_compute in Hplay; discriminate Hplay].
  destruct (match_frame_fails_in_combat (wave 20) g 0.25%float Hplay)
    as [[g' Hg'] | (sig & w1 & es1 & h1 & _ & [(x & _ & Hx) | (ts & ps & x & _ & _ & Hx)])].
  - exists g, g'. split; [reflexivity|exact Hg'].
  - exfalso. vm_compute in Hplay. injection Hplay as <-. vm_compute in Hx. discriminate Hx.
  - exfalso. vm_compute in Hplay. injection Hplay as <-. vm_compute in Hx. discriminate Hx.
Defined.

Lemma perform_without_towers (g : Game) (c : Command) :
  match_ok g -> towers g = [] -> projectiles g = [] -> not_build c ->
  exists g', perform g c = Ok g' /\ towers g' = [] /\ projectiles g' = [].
Proof.
  intros Hok Ht Hp Hc. destruct c as [dt| |pt]; simpl; [| |destruct Hc].
  - destruct (animate_fails_in_combat g dt Hok)
      as [[g' Hg'] | (sig & w1 & es1 & h1 & _ & [(x & Hx & _) | (ts & ps & x & Hts & Hx & _)])].
    + exists g'. split; [exact Hg'|].
      destruct (game_ended (gameStatus g)) eqn:Hend.
      * rewrite (animate_ended g dt Hend) in Hg'. injection Hg' as <-. auto.
      * destruct (animate_stages _ _ _ Hg' Hend)
          as (sig & w1 & es1 & h1 & ts & ps & ps' & h2 & H1 & H2 & H3 & H4).
        rewrite Ht, Hp in H2. simpl in H2. injection H2 as <- <-.
        simpl in H3. injection H3 as <- <-.
        destruct (WaveManager_update_effect _ _ _ _ _ _ _ _ H1) as (_ & _ & _ & Hcase).
        assert (Htp : towers g' = [] /\ projectiles g' = []).
        { clear -H4. revert H4. generalize (List.length es1).
          intros n. set (g0 := mkGame _ _ _ _ _ _ _ _ _).
          assert (H0 : towers g0 = [] /\ projectiles g0 = []) by auto.
          clearbody g0. revert g0 H0.
          induction n as [|i IH]; intros g0 H0; simpl.
          - intros [= <-]. exact H0.
          - unfold animate_enemy, load.
            destruct (enemies g0 !! i) as [r|]; simpl; [|discriminate].
            destruct (heap g0 !! r) as [e|]; simpl; [|discriminate].
            destruct (Enemy_update e dt) as [e1|]; simpl; [|discriminate].
            destruct (isDead e1); simpl; [apply IH; exact H0|].
            destruct (hasReachedEnd e1) as [[]|]; simpl; [| |discriminate].
            + destruct (_ <=? _)%Z; simpl; [intros [= <-]; exact H0|apply IH; exact H0].
            + apply IH. exact H0. }
        exact Htp.
    + rewrite Ht, Hp in Hx. discriminate Hx.
    + rewrite Ht, Hp in Hts. simpl in Hts. injection Hts as <- <-.
      simpl in Hx. discriminate Hx.
  - unfold onStartWave.
    destruct Hok as (_ & _ & _ & _ & _ & Hstat).
    destruct (gameStatus g) eqn:Hst; try (exists g; auto; fail).
    + destruct Hstat as (Ha & _ & _ & Hidx & _).
      destruct (startNextWave_inactive _ Ha ltac:(lia)) as (s & w' & -> & _). simpl.
      destruct s; eexists; (split; [reflexivity|]); auto.
    + destruct Hstat as (Ha & _ & _ & _ & Hidx & _).
      destruct (startNextWave_inactive _ Ha ltac:(lia)) as (s & w' & -> & _). simpl.
      destruct s; eexists; (split; [reflexivity|]); auto.
Qed.

(** X24: without towers nothing goes wrong.  A match in which no tower is
    ever built never throws, whatever the frames and the clicks on the
    start-wave button: every command completes, and there is never a
    projectile. *)
Theorem match_without_towers (cs : list Command) :
  Forall not_build cs ->
  exists g, play Game_init cs = Ok g /\ towers g = [] /\ projectiles g = [].
Proof.
  intros Hcs.
  assert (H : forall g0, match_ok g0 -> towers g0 = [] -> projectiles g0 = [] ->
            exists g, play g0 cs = Ok g /\ towers g = [] /\ projectiles g = []).
  { induction Hcs as [|c cs Hc Hcs IH]; intros g0 Hok Ht Hp; simpl; [eauto|].
    destruct (perform_without_towers g0 c Hok Ht Hp Hc) as (g1 & Hg1 & Ht1 & Hp1).
    rewrite Hg1. simpl. apply IH; auto.
    exact (perform_match_ok _ _ _ Hok Hg1). }
  apply H; [exact Game_init_match_ok|reflexivity|reflexivity].
Qed.

Lemma match_without_towers_witness :
  exists g, play Game_init (wave 5) = Ok g /\ towers g = [] /\ projectiles g = [].
Proof.
  apply match_without_towers. repeat constructor.
Defined.

Lemma match_cursors_witness :
  exists g g',
    play Game_init (wave 20) = Ok g /\
    play g [Frame 0.25%float; Frame 0.25%float] = Ok g' /\
    (forall r e, heap g !! r = Some e -> cursor_ok e) /\
    (forall r e, heap g !! r = Some e ->
       exists e', heap g' !! r = Some e' /\ later e e').
Proof.
  destruct (play Game_init (wave 20)) as [g|] eqn:Hplay;
    [|vm_compute in Hplay; discriminate Hplay].
  destruct (play g [Frame 0.25%float; Frame 0.25%float]) as [g'|] eqn:Hnext.
  - exists g, g'. split; [reflexivity|]. split; [exact Hnext|].
    exact (match_cursors (wave 20) [Frame 0.25%float; Frame 0.25%float] g g' Hplay Hnext).
  - exfalso. vm_compute in Hplay. injection Hplay as <-.
    vm_compute in Hnext. discriminate Hnext.
Defined.
